(** * Word-frequency statistics (words_stat.cpp)

    A shallow embedding of the word counter: the scanner that builds the
    word -> count table, the record comparator, the budgeted fork-join merge
    sort, the writer and [main], followed by the properties proved of them. *)

From Stdlib Require Import ZArith NArith Ascii String List Bool Lia.
From Stdlib Require Import Sorting.Sorted Sorting.Permutation DecimalString.
From Equations Require Import Equations.
From stdpp Require Import base gmap strings list sorting fin_maps.

Local Open Scope Z_scope.

(** ** Machine integers *)

(** [uint64_t] (the counters) and [unsigned int] (the sort budget) are
    modelled as [Z] reduced modulo their width. *)
Definition uint64_modulus : Z := 2 ^ 64.
Definition uint_modulus : Z := 2 ^ 32.

Definition wrap64 (z : Z) : Z := z mod uint64_modulus.
Definition wrap32 (z : Z) : Z := z mod uint_modulus.

(** ** struct StatsData *)

Record StatsData : Type := mkStatsData { word : string; count : Z }.

(** [std::string::operator<]: lexicographic comparison of the bytes taken as
    unsigned values ([char_traits<char>::lt]); a proper prefix is smaller. *)
Fixpoint string_lt (a b : string) : bool :=
  match a, b with
  | _, EmptyString => false
  | EmptyString, String _ _ => true
  | String x a', String y b' =>
      if (N_of_ascii x <? N_of_ascii y)%N then true
      else if (N_of_ascii y <? N_of_ascii x)%N then false
      else string_lt a' b'
  end.

(** [StatsData::operator<]:
    [(count > other.count) || ((count == other.count) && (word < other.word))]. *)
Definition StatsData_lt (a other : StatsData) : bool :=
  (count a >? count other)
  || ((count a =? count other) && string_lt (word a) (word other)).

(** The postcondition of [std::sort] and [std::inplace_merge] on a range:
    no later element compares less than an earlier one. *)
Definition not_after (a b : StatsData) : Prop := StatsData_lt b a = false.

Definition sorted_range (l : list StatsData) : Prop := StronglySorted not_after l.

(** ** The library algorithms used by the sorter *)

(** [std::sort(begin, end)] with [operator<].  The standard fixes the result
    (a permutation of the range in which no element is less than one before
    it), not the algorithm; the model is an insertion sort, and
    [std_sort_unique] below shows that every conforming implementation returns
    the same sequence. *)
Fixpoint sort_insert (x : StatsData) (l : list StatsData) : list StatsData :=
  match l with
  | [] => [x]
  | y :: l' => if StatsData_lt x y then x :: l else y :: sort_insert x l'
  end.

Fixpoint std_sort (l : list StatsData) : list StatsData :=
  match l with
  | [] => []
  | x :: l' => sort_insert x (std_sort l')
  end.

(** [std::inplace_merge(begin, mid, end)]: stable merge of the two consecutive
    sorted ranges [begin, mid) and [mid, end); an element of the second range
    is taken only when it is less than the current element of the first. *)
Fixpoint inplace_merge (l1 : list StatsData) : list StatsData → list StatsData :=
  fix merge_right (l2 : list StatsData) : list StatsData :=
    match l1, l2 with
    | [], _ => l2
    | _, [] => l1
    | x :: l1', y :: l2' =>
        if StatsData_lt y x then y :: merge_right l2'
        else x :: inplace_merge l1' l2
    end.

(** ** ParallelMergeSort *)

(** The default argument [std::thread::hardware_concurrency() / 2], an
    [unsigned int] division. *)
Definition initial_budget (hardware_concurrency : Z) : Z :=
  hardware_concurrency / 2.

(** The guard [len <= 1024 || N < 2] of the sequential branch. *)
Definition base_case (len : nat) (N : Z) : bool :=
  (Z.of_nat len <=? 1024) || (N <? 2).

(** [std::next(begin, len / 2)]: the two halves [begin, mid) and [mid, end). *)
Definition mid (len : nat) : nat := Nat.div len 2.
Definition left_half (l : list StatsData) : list StatsData :=
  firstn (mid (length l)) l.
Definition right_half (l : list StatsData) : list StatsData :=
  skipn (mid (length l)) l.

(** What a call did: sorted its segment with [std::sort], or dispatched the
    left half through [std::async], recursed on the right half, waited and
    merged.  Each node records the segment length and the budget it received. *)
Inductive call_tree : Type :=
| Sequential (len : nat) (N : Z)
| Forked (len : nat) (N : Z) (async_left right : call_tree).

(** Case analysis that keeps the equation of the scrutinee, for the
    termination argument of the recursive calls. *)
Definition inspect {A : Type} (a : A) : {b : A | a = b} := exist _ a eq_refl.

(** The sorter.  The two recursive calls work on disjoint halves of the
    segment and the parent joins the asynchronous one ([wait]) before merging,
    so the future is modelled by the value it delivers.  The result is the
    sorted segment together with the tree of calls that produced it.  The
    recursion is well founded on the segment length. *)
Equations? ParallelMergeSort (l : list StatsData) (N : Z)
  : list StatsData * call_tree by wf (length l) lt :=
ParallelMergeSort l N with inspect (base_case (length l) N) := {
  | exist _ true Hbase => (std_sort l, Sequential (length l) N)
  | exist _ false Hsplit =>
      let async_left := ParallelMergeSort (left_half l) (wrap32 (N - 2)) in
      let right := ParallelMergeSort (right_half l) (wrap32 (N - 2)) in
      (inplace_merge (fst async_left) (fst right),
       Forked (length l) N (snd async_left) (snd right)) }.
Proof.
  all: assert (Hlen : 1024 < Z.of_nat (length l))
    by (pose proof Hsplit as Hs; unfold base_case in Hs;
        apply orb_false_elim in Hs as [Hs _]; apply Z.leb_gt in Hs; exact Hs);
    unfold left_half, right_half, mid;
    rewrite ?length_take, ?length_drop;
    pose proof (Nat.div_lt (length l) 2 ltac:(lia) ltac:(lia));
    assert (0 < length l `div` 2)%nat by (apply Nat.div_str_pos; lia); lia.
Qed.

(** ** Character classification

    The program never calls [setlocale], so [<cctype>] works in the "C"
    locale: [isalpha] holds of the 52 ASCII letters only, and [tolower] maps
    [A]..[Z] to [a]..[z] and leaves every other byte alone.  A byte above 127
    reaches [isalpha] as a negative [char]; the classification tables answer
    "no letter" for it, as for the same byte taken unsigned. *)
Definition isupper (ch : ascii) : bool :=
  ((65 <=? N_of_ascii ch) && (N_of_ascii ch <=? 90))%N.
Definition islower (ch : ascii) : bool :=
  ((97 <=? N_of_ascii ch) && (N_of_ascii ch <=? 122))%N.
Definition isalpha (ch : ascii) : bool := isupper ch || islower ch.
Definition tolower (ch : ascii) : ascii :=
  if isupper ch then ascii_of_N (N_of_ascii ch + 32) else ch.

(** ** The counting loop of ReadFileAndCountStats *)

(** [words_to_stat_count[w] += 1]: [operator[]] value-initialises a missing
    entry to 0; the addition is on [uint64_t]. *)
Definition increment (w : string) (t : gmap string Z) : gmap string Z :=
  <[w := wrap64 (default 0 (t !! w) + 1)]> t.

(** The loop state: the word being accumulated in [current_word_stream] and
    the table. *)
Record scanner : Type := mkScanner {
  current_word_stream : string;
  words_to_stat_count : gmap string Z
}.

(** [if (current_word_stream.str() != "") words_to_stat_count[...] += 1;] *)
Definition count_pending (s : scanner) : gmap string Z :=
  if decide (current_word_stream s = "") then words_to_stat_count s
  else increment (current_word_stream s) (words_to_stat_count s).

(** One iteration of the [while (in_file.get(ch))] body. *)
Definition scan_char (s : scanner) (ch : ascii) : scanner :=
  if isalpha ch then
    mkScanner (current_word_stream s +:+ String (tolower ch) "")
              (words_to_stat_count s)
  else
    mkScanner "" (count_pending s).

Definition scanner_init : scanner := mkScanner "" ∅.

(** The table built from the bytes the stream delivers: the loop followed by
    the final [count_pending] after [close]. *)
Definition count_words (data : list ascii) : gmap string Z :=
  count_pending (fold_left scan_char data scanner_init).

(** ** Effects: standard streams, the clock and exceptions *)

Definition newline : string := String (ascii_of_N 10) "".

(** [operator<<] for [uint64_t] and for the signed tick counts. *)
Definition decimal (n : Z) : string := NilZero.string_of_int (Z.to_int n).

Inductive exception : Type :=
| runtime_error (what : string)
| ios_base_failure (what : string)
| std_exception.

(** [e.what()]; the sliced copy thrown by [throw e;] carries the generic text. *)
Definition what_of (e : exception) : string :=
  match e with
  | runtime_error w => w
  | ios_base_failure w => w
  | std_exception => "std::exception"
  end.

(** The observable state of the process. *)
Record process : Type := mkProcess {
  cerr : string;
  cout : string;
  clock_reads : nat
}.

Definition process_init : process := mkProcess "" "" 0.

(** Computations that may write to the standard streams, read the clock and
    throw. *)
Definition M (A : Type) : Type := process → (exception + A) * process.

Definition ret {A : Type} (a : A) : M A := λ p, (inr a, p).
Definition throw {A : Type} (e : exception) : M A := λ p, (inl e, p).
Definition bind {A B : Type} (m : M A) (k : A → M B) : M B :=
  λ p, match m p with
       | (inl e, p') => (inl e, p')
       | (inr a, p') => k a p'
       end.
(** [try { m } catch (const std::exception& e) { handler e }] *)
Definition try_catch {A : Type} (m : M A) (handler : exception → M A) : M A :=
  λ p, match m p with
       | (inl e, p') => handler e p'
       | (inr a, p') => (inr a, p')
       end.
Definition lift {A : Type} (r : exception + A) : M A := λ p, (r, p).

(** [try { m } catch (...) { return ...; }] seen from the caller: the
    outcome of [m] as a value. *)
Definition attempt {A : Type} (m : M A) : M (exception + A) :=
  λ p, let '(r, p') := m p in (inr r, p').

#[export] Instance M_ret : MRet M := @ret.
#[export] Instance M_bind : MBind M := λ A B k m, bind m k.

Definition cerr_put (s : string) : M unit :=
  λ p, (inr tt, mkProcess (cerr p +:+ s) (cout p) (clock_reads p)).
Definition cout_put (s : string) : M unit :=
  λ p, (inr tt, mkProcess (cerr p) (cout p +:+ s) (clock_reads p)).
(** [std::chrono::steady_clock::now()], in ticks of one nanosecond; the k-th
    reading is supplied by the environment. *)
Definition steady_clock_now (clock : nat → Z) : M Z :=
  λ p, (inr (clock (clock_reads p)),
        mkProcess (cerr p) (cout p) (S (clock_reads p))).

(** ** class TimeLogger *)

Record TimeLogger : Type := mkTimeLogger { prev_timestamp_ : Z }.

Definition TimeLogger_new (clock : nat → Z) : M TimeLogger :=
  now ← steady_clock_now clock; mret (mkTimeLogger now).

Definition LogTime (clock : nat → Z) (tl : TimeLogger) (log_text : string)
  : M TimeLogger :=
  now ← steady_clock_now clock;
  let milliseconds := Z.quot (now - prev_timestamp_ tl) 1000000 in
  _ ← cout_put ("Time spent for " +:+ log_text +:+ ": "
                    +:+ decimal (Z.quot milliseconds 1000) +:+ "s "
                    +:+ decimal (Z.rem milliseconds 1000) +:+ "ms"
                    +:+ newline);
  mret (mkTimeLogger now).

(** ** File streams

    What the file system answers when a path is opened.  A stream reports a
    failed operation through its state bits ([failbit], [badbit]) and throws
    [std::ios_base::failure] only for the bits in its [exceptions()] mask.
    The mask is [goodbit] after construction ([basic_ios::init]) and the
    program never calls [exceptions(...)], so the streams below are built
    with an empty mask. *)
Inductive input_file : Type :=
| CannotOpenInput
| InputData (data : list ascii) (read_error : bool).

Record ifstream : Type := mkIfstream {
  in_is_open : bool;
  in_data : list ascii;        (* the bytes [get] delivers *)
  in_read_error : bool;        (* the read after them fails instead of
                                  reaching the end of the file *)
  in_exceptions : bool         (* [exceptions()] contains [failbit] *)
}.

(** [std::ifstream in_file(input_filename)] *)
Definition ifstream_open (f : input_file) : ifstream :=
  match f with
  | CannotOpenInput => mkIfstream false [] false false
  | InputData data read_error => mkIfstream true data read_error false
  end.

(** [while (in_file.get(ch)) body]: [get] delivers the bytes in turn; the
    call after the last one sets [failbit] (with [eofbit] or [badbit]), so it
    converts to false and ends the loop, or throws when the mask asks for it. *)
Fixpoint read_loop (data : list ascii) (exceptions : bool) (s : scanner)
  : exception + scanner :=
  match data with
  | [] => if exceptions then inl (ios_base_failure "basic_ios::clear")
          else inr s
  | ch :: rest => read_loop rest exceptions (scan_char s ch)
  end.

Inductive output_file : Type :=
| CannotOpenOutput
| OutputDevice (write_error : bool).

Record ofstream : Type := mkOfstream {
  out_is_open : bool;
  out_contents : string;       (* what the device has accepted *)
  out_write_error : bool;      (* the device rejects every write *)
  out_exceptions : bool        (* [exceptions()] contains [badbit] *)
}.

(** [std::ofstream out_file(output_filename, std::ios_base::out)] *)
Definition ofstream_open (f : output_file) : ofstream :=
  match f with
  | CannotOpenOutput => mkOfstream false "" false false
  | OutputDevice write_error => mkOfstream true "" write_error false
  end.

(** [out_file << s]: a rejected write sets [badbit] and stores nothing; it
    throws only when the mask asks for it. *)
Definition insert_string (s : string) (f : ofstream) : exception + ofstream :=
  if out_write_error f then
    if out_exceptions f then inl (ios_base_failure "basic_ios::clear")
    else inr f
  else inr (mkOfstream (out_is_open f) (out_contents f +:+ s)
                       (out_write_error f) (out_exceptions f)).

Definition and_then {A B : Type} (r : exception + A) (k : A → exception + B)
  : exception + B :=
  match r with inl e => inl e | inr a => k a end.

(** [for (const auto& stat : stats)
       out_file << stat.word << " " << stat.count << "\n";] *)
Fixpoint write_loop (stats : list StatsData) (f : ofstream)
  : exception + ofstream :=
  match stats with
  | [] => inr f
  | stat :: rest =>
      and_then (insert_string (word stat) f) (λ f1,
      and_then (insert_string " " f1) (λ f2,
      and_then (insert_string (decimal (count stat)) f2) (λ f3,
      and_then (insert_string newline f3) (λ f4,
      write_loop rest f4))))
  end.

(** ** The environment of a run *)

(** The order in which a range-for visits a [std::unordered_map]: some
    enumeration of its entries, fixed by the hash function and the history of
    the table, not by the program. *)
Record unordered_iteration : Type := mkIteration {
  visit : gmap string Z → list (string * Z);
  visit_entries : ∀ t, visit t ≡ₚ map_to_list t
}.

Record environment : Type := mkEnvironment {
  argv : list string;                       (* [argc] is its length *)
  open_for_reading : string → input_file;
  open_for_writing : string → output_file;
  hardware_concurrency : Z;                 (* an [unsigned int] *)
  iteration : unordered_iteration;
  steady_clock : nat → Z
}.

(** ** ReadFileAndCountStats *)

Definition ReadFileAndCountStats (env : environment) (input_filename : string)
  : M (gmap string Z) :=
  let in_file := ifstream_open (open_for_reading env input_filename) in
  if negb (in_is_open in_file) then
    let error_msg :=
      "can't open input file for reading, filename: " +:+ input_filename in
    _ ← cerr_put (error_msg +:+ newline);
    throw (runtime_error error_msg)
  else
    s ← try_catch
              (lift (read_loop (in_data in_file) (in_exceptions in_file)
                               scanner_init))
              (λ e, _ ← cerr_put
                                 ("Error occurred while reading the file: "
                                  +:+ what_of e +:+ newline);
                    throw std_exception);
    mret (count_pending s).

(** ** ConvertAndSortStats *)

Definition to_record (word_count : string * Z) : StatsData :=
  mkStatsData word_count.1 word_count.2.

Definition ConvertAndSortStats (env : environment)
    (words_to_stat_count : gmap string Z) : list StatsData :=
  let stats := map to_record (visit (iteration env) words_to_stat_count) in
  (ParallelMergeSort stats (initial_budget (hardware_concurrency env))).1.

(** ** WriteStatsToFile *)

(** Returns what the output device holds after [close]. *)
Definition WriteStatsToFile (env : environment) (stats : list StatsData)
    (output_filename : string) : M string :=
  let out_file := ofstream_open (open_for_writing env output_filename) in
  if negb (out_is_open out_file) then
    let error_msg :=
      "can't open output file for writing, filename: " +:+ output_filename in
    _ ← cerr_put (error_msg +:+ newline);
    throw (runtime_error error_msg)
  else
    f ← try_catch
              (lift (write_loop stats out_file))
              (λ e, _ ← cerr_put
                                 ("Error occurred while writing into the file: "
                                  +:+ what_of e +:+ newline);
                    throw std_exception);
    mret (out_contents f).

(** ** main *)

(** [argv[i]] *)
Definition arg (env : environment) (i : nat) : string :=
  nth i (argv env) "".

(** The value returned by [main] and the contents of the output file when it
    was written. *)
Definition main (env : environment) : M (Z * option string) :=
  if negb (Nat.eqb (length (argv env)) 3) then
    _ ← cerr_put ("usage: ./freq <fromfile> <tofile>" +:+ newline);
    mret (0, None)
  else
    time_logger ← TimeLogger_new (steady_clock env);
    read ← attempt (ReadFileAndCountStats env (arg env 1));
    match read with
    | inl _ => mret (0, None)
    | inr words_to_stat_count =>
        time_logger ← LogTime (steady_clock env) time_logger
                                  "read and count stats";
        let stats := ConvertAndSortStats env words_to_stat_count in
        time_logger ← LogTime (steady_clock env) time_logger
                                  "sort stats";
        written ← attempt (WriteStatsToFile env stats (arg env 2));
        match written with
        | inl _ => mret (0, None)
        | inr contents =>
            time_logger ← LogTime (steady_clock env) time_logger
                                      "write stats";
            mret (0, Some contents)
        end
    end.

(** ** Vocabulary of the properties *)

(** The maximal runs of alphabetic bytes of a stream, in order of occurrence:
    a stream is a sequence of non-alphabetic bytes and of non-empty runs of
    letters, each run ending at the end of the stream or before a
    non-alphabetic byte. *)
Inductive maximal_runs : list ascii → list (list ascii) → Prop :=
| runs_end : maximal_runs [] []
| runs_separator ch data runs :
    isalpha ch = false →
    maximal_runs data runs →
    maximal_runs (ch :: data) runs
| runs_word run data runs :
    run ≠ [] →
    forallb isalpha run = true →
    (∀ ch, head data = Some ch → isalpha ch = false) →
    maximal_runs data runs →
    maximal_runs (run ++ data) (run :: runs).

(** The same, computed from the end of the stream: the run that starts at the
    first byte (empty when that byte is no letter) and the runs after it. *)
Definition cons_run (run : list ascii) (runs : list (list ascii))
  : list (list ascii) :=
  match run with [] => runs | _ :: _ => run :: runs end.

Fixpoint split_runs (data : list ascii) : list ascii * list (list ascii) :=
  match data with
  | [] => ([], [])
  | ch :: rest =>
      let '(run, runs) := split_runs rest in
      if isalpha ch then (ch :: run, runs) else ([], cons_run run runs)
  end.

Definition alphabetic_runs (data : list ascii) : list (list ascii) :=
  cons_run (split_runs data).1 (split_runs data).2.

(** A run folded to lower case, as a word. *)
Definition case_fold (run : list ascii) : string :=
  string_of_list_ascii (map tolower run).

(** The tokens of a stream: its maximal alphabetic runs, case-folded. *)
Definition tokens (data : list ascii) : list string :=
  map case_fold (alphabetic_runs data).

Definition occurrences (w : string) (ws : list string) : nat :=
  length (filter (λ x, x = w) ws).

Definition distinct_words (ws : list string) : list string := remove_dups ws.

Definition total_count (stats : list StatsData) : Z :=
  foldr (λ r acc, count r + acc) 0 stats.

(** One output line: word, a single space, the count, a newline. *)
Definition output_line (r : StatsData) : string :=
  word r +:+ " " +:+ decimal (count r) +:+ newline.

Definition output_lines (stats : list StatsData) : string :=
  foldr (λ r rest, output_line r +:+ rest) "" stats.

(** The order the specification asks of two adjacent output records. *)
Definition in_order (A B : StatsData) : Prop :=
  count A > count B
  ∨ (count A = count B
     ∧ (string_lt (word A) (word B) = true ∨ word A = word B)).

(** Two iteration orders of an unordered map. *)
Definition table_order : unordered_iteration :=
  mkIteration map_to_list (λ t, reflexivity (map_to_list t)).

Definition reversed_order : unordered_iteration :=
  mkIteration (λ t, reverse (map_to_list t))
              (λ t, reverse_Permutation (map_to_list t)).

(** A word list with a possibly empty pending word in front, and the table
    after counting a list of words one by one. *)
Definition cons_word (w : string) (ws : list string) : list string :=
  if decide (w = "") then ws else w :: ws.

Definition count_all (ws : list string) (t : gmap string Z) : gmap string Z :=
  fold_left (λ t w, increment w t) ws t.

(** What a run amounts to, read off the arguments and the file system. *)
Inductive run_kind : Type :=
| UsageError
| InputOpenError (input_filename : string)
| OutputOpenError (output_filename : string)
| Completed (written : string).

Definition run_summary (args : list string) (open_r : string → input_file)
    (open_w : string → output_file) : run_kind :=
  match args with
  | [_; input_filename; output_filename] =>
      match open_r input_filename with
      | CannotOpenInput => InputOpenError input_filename
      | InputData data _ =>
          match open_w output_filename with
          | CannotOpenOutput => OutputOpenError output_filename
          | OutputDevice write_error =>
              Completed
                (if write_error then ""
                 else output_lines
                        (std_sort (to_record <$> map_to_list (count_words data))))
          end
      end
  | _ => UsageError
  end.

Definition summary_result (k : run_kind) : Z * option string :=
  match k with Completed written => (0, Some written) | _ => (0, None) end.

Definition summary_diagnostic (k : run_kind) : string :=
  match k with
  | UsageError => "usage: ./freq <fromfile> <tofile>" +:+ newline
  | InputOpenError input_filename =>
      "can't open input file for reading, filename: " +:+ input_filename
      +:+ newline
  | OutputOpenError output_filename =>
      "can't open output file for writing, filename: " +:+ output_filename
      +:+ newline
  | Completed _ => ""
  end.

(** Sample data for the instances of the claims below. *)
Definition sample_records : list StatsData :=
  [mkStatsData "b" 1; mkStatsData "a" 2; mkStatsData "a" 1].

(** [n] records with the counts [n], ..., 1: already in output order. *)
Definition descending_counts (n : nat) : list StatsData :=
  (λ i, mkStatsData "w" (Z.of_nat i)) <$> reverse (seq 1 n).

Definition sample_environment (data : string) (it : unordered_iteration)
    (hc : Z) (clock : nat → Z) : environment :=
  mkEnvironment ["./freq"; "in.txt"; "out.txt"]
                (λ _, InputData (list_ascii_of_string data) false)
                (λ _, OutputDevice false) hc it clock.

(** The segment length and the budget a call received. *)
Definition segment (t : call_tree) : nat :=
  match t with Sequential len _ => len | Forked len _ _ _ => len end.

Definition budget (t : call_tree) : Z :=
  match t with Sequential _ N => N | Forked _ N _ _ => N end.

(** Every call that forks does so on a segment longer than the threshold and
    hands each child a non-empty, strictly shorter part of it. *)
Fixpoint decreasing_calls (t : call_tree) : Prop :=
  match t with
  | Sequential _ _ => True
  | Forked len _ tl tr =>
      (1024 < len)%nat
      ∧ (0 < segment tl < len)%nat ∧ (0 < segment tr < len)%nat
      ∧ (segment tl + segment tr = len)%nat
      ∧ decreasing_calls tl ∧ decreasing_calls tr
  end.

(** The depth of forking below a call, the number of [std::async] tasks it
    and its descendants dispatch, and the segments handed to [std::sort]. *)
Fixpoint fork_depth (t : call_tree) : nat :=
  match t with
  | Sequential _ _ => 0
  | Forked _ _ tl tr => S (Nat.max (fork_depth tl) (fork_depth tr))
  end.

Fixpoint async_tasks (t : call_tree) : nat :=
  match t with
  | Sequential _ _ => 0
  | Forked _ _ tl tr => S (async_tasks tl + async_tasks tr)
  end.

Fixpoint sequential_segments (t : call_tree) : list nat :=
  match t with
  | Sequential len _ => [len]
  | Forked _ _ tl tr => sequential_segments tl ++ sequential_segments tr
  end.

(** A record as a table entry. *)
Definition to_entry (r : StatsData) : string * Z := (word r, count r).

(** The number of newline bytes of a text. *)
Fixpoint newlines (s : string) : nat :=
  match s with
  | EmptyString => 0
  | String c s' => (if decide (c = ascii_of_N 10) then 1 else 0) + newlines s'
  end.

(** The line [LogTime] prints for the interval between the [k]-th and the
    next reading of the clock. *)
Definition timing_line (clock : nat → Z) (k : nat) (log_text : string)
  : string :=
  "Time spent for " +:+ log_text +:+ ": "
  +:+ decimal (Z.quot (Z.quot (clock (S k) - clock k) 1000000) 1000) +:+ "s "
  +:+ decimal (Z.rem (Z.quot (clock (S k) - clock k) 1000000) 1000) +:+ "ms"
  +:+ newline.

(** * Properties *)

(** ** The comparator is a strict total order *)

Lemma N_of_ascii_inj (x y : ascii) : N_of_ascii x = N_of_ascii y → x = y.
Proof.
  intros H. rewrite <- (ascii_N_embedding x), <- (ascii_N_embedding y).
  by rewrite H.
Qed.

Lemma string_lt_irrefl (a : string) : string_lt a a = false.
Proof. induction a as [|x a IH]; simpl; [done|]. by rewrite N.ltb_irrefl. Qed.

Lemma string_lt_trans (a b c : string) :
  string_lt a b = true → string_lt b c = true → string_lt a c = true.
Proof.
  revert b c. induction a as [|x a IH]; intros [|y b] [|z c]; simpl; try done.
  destruct (N.ltb_spec (N_of_ascii x) (N_of_ascii y)),
           (N.ltb_spec (N_of_ascii y) (N_of_ascii x)),
           (N.ltb_spec (N_of_ascii y) (N_of_ascii z)),
           (N.ltb_spec (N_of_ascii z) (N_of_ascii y)),
           (N.ltb_spec (N_of_ascii x) (N_of_ascii z)),
           (N.ltb_spec (N_of_ascii z) (N_of_ascii x));
    try done; try lia.
  apply IH.
Qed.

Lemma string_lt_connex (a b : string) :
  string_lt a b = false → string_lt b a = false → a = b.
Proof.
  revert b. induction a as [|x a IH]; intros [|y b]; simpl; try done.
  destruct (N.ltb_spec (N_of_ascii x) (N_of_ascii y)),
           (N.ltb_spec (N_of_ascii y) (N_of_ascii x)); try done; try lia.
  intros Hab Hba. f_equal; [apply N_of_ascii_inj; lia | by apply IH].
Qed.

Lemma StatsData_lt_irrefl (a : StatsData) : StatsData_lt a a = false.
Proof.
  unfold StatsData_lt. rewrite string_lt_irrefl, andb_false_r, orb_false_r.
  rewrite Z.gtb_ltb. apply Z.ltb_irrefl.
Qed.

Lemma StatsData_lt_spec (a b : StatsData) :
  StatsData_lt a b = true ↔
  count a > count b ∨ (count a = count b ∧ string_lt (word a) (word b) = true).
Proof.
  unfold StatsData_lt.
  rewrite orb_true_iff, andb_true_iff, Z.gtb_ltb, Z.ltb_lt, Z.eqb_eq.
  intuition lia.
Qed.

Lemma StatsData_lt_trans (a b c : StatsData) :
  StatsData_lt a b = true → StatsData_lt b c = true → StatsData_lt a c = true.
Proof.
  rewrite !StatsData_lt_spec.
  intros [?|[? Hab]] [?|[? Hbc]]; try (left; lia).
  right. split; [lia|]. by eapply string_lt_trans.
Qed.

Lemma StatsData_lt_connex (a b : StatsData) :
  StatsData_lt a b = false → StatsData_lt b a = false → a = b.
Proof.
  unfold StatsData_lt. intros Hab Hba.
  apply orb_false_elim in Hab as [Hc1 Hw1].
  apply orb_false_elim in Hba as [Hc2 Hw2].
  rewrite Z.gtb_ltb in Hc1, Hc2. apply Z.ltb_ge in Hc1, Hc2.
  assert (Hc : count a = count b) by lia.
  rewrite Hc, Z.eqb_refl in Hw1, Hw2. simpl in Hw1, Hw2.
  destruct a as [wa ca], b as [wb cb]; simpl in *.
  f_equal; [by apply string_lt_connex | done].
Qed.

Lemma not_after_iff (a b : StatsData) :
  not_after a b ↔ a = b ∨ StatsData_lt a b = true.
Proof.
  unfold not_after. split.
  - intros Hba. destruct (StatsData_lt a b) eqn:Hab; [by right|].
    left. by apply StatsData_lt_connex.
  - intros [->|Hab]; [apply StatsData_lt_irrefl|].
    destruct (StatsData_lt b a) eqn:Hba; [|done].
    pose proof (StatsData_lt_trans _ _ _ Hab Hba) as Haa.
    by rewrite StatsData_lt_irrefl in Haa.
Qed.

#[local] Instance not_after_trans : Transitive not_after.
Proof.
  intros a b c. rewrite !not_after_iff.
  intros [->|Hab] [->|Hbc]; auto. right. by eapply StatsData_lt_trans.
Qed.

#[local] Instance not_after_antisymm : AntiSymm (=) not_after.
Proof. intros a b Hab Hba. by apply StatsData_lt_connex. Qed.

Lemma not_after_total (a b : StatsData) : not_after a b ∨ not_after b a.
Proof.
  unfold not_after. destruct (StatsData_lt b a) eqn:Hba; [|by left].
  right. apply not_after_iff. by right.
Qed.

Lemma not_after_in_order (a b : StatsData) : not_after a b ↔ in_order a b.
Proof.
  rewrite not_after_iff, StatsData_lt_spec. unfold in_order. split.
  - intros [->|[?|[? ?]]]; [right|left|right]; auto.
  - intros [?|[Hc [?|Hw]]]; [right; left|right; right|left]; auto.
    destruct a, b; simpl in *; congruence.
Qed.

(** ** std::sort and std::inplace_merge meet their contracts *)

Lemma sort_insert_perm (x : StatsData) (l : list StatsData) :
  sort_insert x l ≡ₚ x :: l.
Proof.
  induction l as [|y l IH]; simpl; [done|].
  destruct (StatsData_lt x y); [done|].
  rewrite IH. apply perm_swap.
Qed.

Lemma sort_insert_sorted (x : StatsData) (l : list StatsData) :
  sorted_range l → sorted_range (sort_insert x l).
Proof.
  unfold sorted_range. induction 1 as [|y l Hl IH Hy]; simpl.
  - repeat constructor.
  - destruct (StatsData_lt x y) eqn:Hxy.
    + constructor; [by constructor|].
      assert (Hx : not_after x y) by (apply not_after_iff; by right).
      constructor; [done|].
      eapply Forall_impl; [exact Hy|]. intros z Hz. by transitivity y.
    + constructor; [done|].
      rewrite sort_insert_perm. by constructor.
Qed.

Lemma std_sort_perm (l : list StatsData) : std_sort l ≡ₚ l.
Proof.
  induction l as [|x l IH]; simpl; [done|].
  by rewrite sort_insert_perm, IH.
Qed.

Lemma std_sort_sorted (l : list StatsData) : sorted_range (std_sort l).
Proof.
  induction l as [|x l IH]; simpl; [constructor|].
  by apply sort_insert_sorted.
Qed.

(** Any sequence that satisfies the postcondition of [std::sort] for a range
    is the one the model computes: the contract determines the result. *)
Lemma std_sort_unique (l out : list StatsData) :
  out ≡ₚ l → sorted_range out → out = std_sort l.
Proof.
  intros Hperm Hsorted.
  apply (StronglySorted_unique not_after); [done|apply std_sort_sorted|].
  by rewrite std_sort_perm.
Qed.

Lemma inplace_merge_nil_r (l1 : list StatsData) : inplace_merge l1 [] = l1.
Proof. by destruct l1. Qed.

Lemma inplace_merge_cons (x y : StatsData) (l1 l2 : list StatsData) :
  inplace_merge (x :: l1) (y :: l2) =
  if StatsData_lt y x then y :: inplace_merge (x :: l1) l2
  else x :: inplace_merge l1 (y :: l2).
Proof. done. Qed.

Lemma inplace_merge_perm (l1 l2 : list StatsData) :
  inplace_merge l1 l2 ≡ₚ l1 ++ l2.
Proof.
  revert l2. induction l1 as [|x l1 IH1]; intros l2; [by destruct l2|].
  induction l2 as [|y l2 IH2].
  - by rewrite inplace_merge_nil_r, app_nil_r.
  - rewrite inplace_merge_cons. destruct (StatsData_lt y x).
    + rewrite IH2. by rewrite (Permutation_middle (x :: l1) l2 y).
    + by rewrite IH1.
Qed.

Lemma inplace_merge_sorted (l1 l2 : list StatsData) :
  sorted_range l1 → sorted_range l2 → sorted_range (inplace_merge l1 l2).
Proof.
  unfold sorted_range. revert l2.
  induction l1 as [|x l1 IH1]; intros l2 H1 H2; [destruct l2; exact H2|].
  induction l2 as [|y l2 IH2]; [rewrite inplace_merge_nil_r; exact H1|].
  apply StronglySorted_inv in H1 as [H1 Hx].
  pose proof H2 as H2'. apply StronglySorted_inv in H2' as [H2' Hy].
  rewrite inplace_merge_cons. destruct (StatsData_lt y x) eqn:Hyx.
  - constructor; [by apply IH2|].
    rewrite inplace_merge_perm. apply Forall_app. split; [|done].
    assert (not_after y x) by (apply not_after_iff; by right).
    constructor; [done|].
    eapply Forall_impl; [exact Hx|]. intros z Hz. by transitivity x.
  - constructor; [by apply IH1|].
    rewrite inplace_merge_perm. apply Forall_app. split; [done|].
    constructor; [done|].
    eapply Forall_impl; [exact Hy|]. intros z Hz. by transitivity y.
Qed.

Lemma std_sort_Permutation (l1 l2 : list StatsData) :
  l1 ≡ₚ l2 → std_sort l1 = std_sort l2.
Proof.
  intros Hperm. apply std_sort_unique; [|apply std_sort_sorted].
  by rewrite std_sort_perm.
Qed.

Lemma std_sort_halves (l : list StatsData) :
  inplace_merge (std_sort (left_half l)) (std_sort (right_half l)) = std_sort l.
Proof.
  apply std_sort_unique.
  - rewrite inplace_merge_perm, !std_sort_perm.
    unfold left_half, right_half. by rewrite take_drop.
  - apply inplace_merge_sorted; apply std_sort_sorted.
Qed.

(** ** The sorter: unfolding and result *)

Lemma ParallelMergeSort_base (l : list StatsData) (N : Z) :
  base_case (length l) N = true →
  ParallelMergeSort l N = (std_sort l, Sequential (length l) N).
Proof.
  intros Hbase. rewrite ParallelMergeSort_equation_1.
  destruct (inspect (base_case (length l) N)) as [[] Hb]; [done|congruence].
Qed.

Lemma ParallelMergeSort_split (l : list StatsData) (N : Z) :
  base_case (length l) N = false →
  ParallelMergeSort l N =
  (inplace_merge (ParallelMergeSort (left_half l) (wrap32 (N - 2))).1
                 (ParallelMergeSort (right_half l) (wrap32 (N - 2))).1,
   Forked (length l) N
          (ParallelMergeSort (left_half l) (wrap32 (N - 2))).2
          (ParallelMergeSort (right_half l) (wrap32 (N - 2))).2).
Proof.
  intros Hsplit. rewrite ParallelMergeSort_equation_1.
  destruct (inspect (base_case (length l) N)) as [[] Hb]; [congruence|done].
Qed.

Lemma halves_shorter (l : list StatsData) (N : Z) :
  base_case (length l) N = false →
  (0 < length (left_half l) < length l)%nat
  ∧ (0 < length (right_half l) < length l)%nat.
Proof.
  unfold base_case. intros Hsplit.
  apply orb_false_elim in Hsplit as [Hlen _]. apply Z.leb_gt in Hlen.
  unfold left_half, right_half, mid. rewrite length_take, length_drop.
  pose proof (Nat.div_lt (length l) 2 ltac:(lia) ltac:(lia)).
  assert (0 < length l `div` 2)%nat by (apply Nat.div_str_pos; lia). lia.
Qed.

Lemma ParallelMergeSort_std_sort (l : list StatsData) (N : Z) :
  (ParallelMergeSort l N).1 = std_sort l.
Proof.
  remember (length l) as n eqn:Hn. revert l N Hn.
  induction (lt_wf n) as [n _ IH]. intros l N ->.
  destruct (base_case (length l) N) eqn:Hcase.
  - by rewrite ParallelMergeSort_base.
  - rewrite ParallelMergeSort_split by done. simpl.
    destruct (halves_shorter l N Hcase) as [[_ Hl] [_ Hr]].
    rewrite (IH _ Hl _ _ eq_refl), (IH _ Hr _ _ eq_refl).
    apply std_sort_halves.
Qed.

Lemma ParallelMergeSort_perm (l : list StatsData) (N : Z) :
  (ParallelMergeSort l N).1 ≡ₚ l.
Proof. rewrite ParallelMergeSort_std_sort. apply std_sort_perm. Qed.

Lemma ParallelMergeSort_root (l : list StatsData) (N : Z) :
  segment (ParallelMergeSort l N).2 = length l
  ∧ budget (ParallelMergeSort l N).2 = N.
Proof.
  destruct (base_case (length l) N) eqn:Hcase.
  - by rewrite ParallelMergeSort_base.
  - by rewrite ParallelMergeSort_split.
Qed.

Lemma sorted_range_lookup (l : list StatsData) (i j : nat) (a b : StatsData) :
  sorted_range l → (i < j)%nat → l !! i = Some a → l !! j = Some b →
  not_after a b.
Proof.
  unfold sorted_range. intros Hl. revert i j.
  induction Hl as [|x l Hl IH Hx]; intros i j Hij Hi Hj; [done|].
  destruct j as [|j]; [lia|]. simpl in Hj. destruct i as [|i]; simpl in Hi.
  - injection Hi as ->. rewrite Forall_forall in Hx. apply Hx.
    by eapply list_elem_of_lookup_2.
  - apply (IH i j); [lia|done..].
Qed.

(** ** The sorter: claims *)

(** C1: in the sequence produced by the sorter every adjacent pair (A, B)
    has A.count > B.count, or A.count = B.count and A.word <= B.word in the
    byte-wise lexicographic order. *)
Theorem sorter_output_in_order (l : list StatsData) (N : Z) (i : nat)
    (A B : StatsData) :
  (ParallelMergeSort l N).1 !! i = Some A →
  (ParallelMergeSort l N).1 !! S i = Some B →
  in_order A B.
Proof.
  rewrite ParallelMergeSort_std_sort. intros HA HB.
  apply not_after_in_order.
  apply (sorted_range_lookup (std_sort l) i (S i)); auto using std_sort_sorted.
Qed.

(** C3: for every record sequence and every budget the parallel sorter
    returns exactly the sequence the sequential [std::sort] returns under the
    same comparator, whatever the segment size. *)
Theorem parallel_sort_is_sequential_sort (l : list StatsData) (N : Z) :
  (ParallelMergeSort l N).1 = std_sort l.
Proof. apply ParallelMergeSort_std_sort. Qed.

(** With budget 4 a segment of 4100 records is split twice; the budget goes
    down by 2 at each level and the quarters are sorted sequentially. *)
Lemma budget_four_forks_twice :
  (ParallelMergeSort (descending_counts 4100) 4).2
  = Forked 4100 4
      (Forked 2050 2 (Sequential 1025 0) (Sequential 1025 0))
      (Forked 2050 2 (Sequential 1025 0) (Sequential 1025 0)).
Proof. by vm_compute. Qed.

(** C4, as the code has it: a call takes the sequential branch exactly when
    its segment has at most 1024 elements or its budget is below 2; otherwise
    it splits the segment at [len / 2] and sorts each half with budget
    [N - 2] before merging them. *)
Theorem base_case_exactly (l : list StatsData) (N : Z) :
  0 ≤ N < uint_modulus →
  ParallelMergeSort l N =
  if decide ((length l ≤ 1024)%nat ∨ N < 2) then
    (std_sort l, Sequential (length l) N)
  else
    let left := ParallelMergeSort (take (length l / 2) l) (N - 2) in
    let right := ParallelMergeSort (drop (length l / 2) l) (N - 2) in
    (inplace_merge left.1 right.1, Forked (length l) N left.2 right.2).
Proof.
  intros HN. case_decide as Hcase.
  - apply ParallelMergeSort_base. unfold base_case.
    apply orb_true_iff. rewrite Z.leb_le, Z.ltb_lt. lia.
  - assert (Hwrap : wrap32 (N - 2) = N - 2).
    { unfold wrap32. apply Z.mod_small. unfold uint_modulus in *. lia. }
    rewrite ParallelMergeSort_split.
    + unfold left_half, right_half, mid. by rewrite Hwrap.
    + unfold base_case. apply orb_false_iff. rewrite Z.leb_gt, Z.ltb_ge. lia.
Qed.

(** C6: sorting the sorted sequence again, or any reshuffling of it, with
    any budget, gives the sequence obtained by sorting once. *)
Theorem sorter_idempotent (l l' : list StatsData) (N N' : Z) :
  l' ≡ₚ (ParallelMergeSort l N).1 →
  (ParallelMergeSort l' N').1 = (ParallelMergeSort l N).1.
Proof.
  intros Hperm. rewrite !ParallelMergeSort_std_sort.
  apply std_sort_Permutation.
  by rewrite Hperm, ParallelMergeSort_perm.
Qed.

(** C7, as the code has it: the budget of the outermost call is
    [floor(p / 2)] for hardware parallelism [p]; this is
    [max(1, floor(p / 2))] when [p >= 2] and 0 when [p < 2]. *)
Theorem initial_budget_is_half (l : list StatsData) (p : Z) :
  0 ≤ p < uint_modulus →
  budget (ParallelMergeSort l (initial_budget p)).2 = p / 2
  ∧ initial_budget p = (if decide (2 ≤ p) then Z.max 1 (p / 2) else 0).
Proof.
  intros Hp. unfold initial_budget.
  split; [apply ParallelMergeSort_root|].
  case_decide as Hp2.
  - pose proof (Z.div_le_lower_bound p 2 1). lia.
  - apply Z.div_small. lia.
Qed.

(** C9: the calls of the sorter decrease: a call forks only on a segment
    longer than the threshold, and both halves it hands on are non-empty and
    strictly shorter than the segment; the call tree of every run is built
    from such calls, on the whole input. *)
Theorem ParallelMergeSort_terminates (l : list StatsData) (N : Z) :
  segment (ParallelMergeSort l N).2 = length l
  ∧ decreasing_calls (ParallelMergeSort l N).2.
Proof.
  split; [apply ParallelMergeSort_root|].
  remember (length l) as n eqn:Hn. revert l N Hn.
  induction (lt_wf n) as [n _ IH]. intros l N ->.
  destruct (base_case (length l) N) eqn:Hcase.
  - by rewrite ParallelMergeSort_base.
  - rewrite ParallelMergeSort_split by done. simpl.
    destruct (halves_shorter l N Hcase) as [[Hl0 Hl] [Hr0 Hr]].
    rewrite !(proj1 (ParallelMergeSort_root _ _)).
    assert (length (left_half l) + length (right_half l) = length l)%nat.
    { unfold left_half, right_half. by rewrite <- length_app, take_drop. }
    unfold base_case in Hcase. apply orb_false_elim in Hcase as [Hlen _].
    apply Z.leb_gt in Hlen.
    repeat split; try lia.
    + by apply (IH (length (left_half l))).
    + by apply (IH (length (right_half l))).
Qed.

(** ** The counting loop *)

Lemma string_app_cons (c : ascii) (a b : string) :
  String c a +:+ b = String c (a +:+ b).
Proof. done. Qed.

Lemma string_app_nil_r (a : string) : a +:+ "" = a.
Proof. induction a as [|c a IH]; [done|]. by rewrite string_app_cons, IH. Qed.

Lemma string_app_assoc (a b c : string) : (a +:+ b) +:+ c = a +:+ (b +:+ c).
Proof.
  induction a as [|x a IH]; [done|]. by rewrite !string_app_cons, IH.
Qed.

Lemma case_fold_nil_iff (run : list ascii) : case_fold run = "" ↔ run = [].
Proof. by destruct run. Qed.

Lemma tokens_split_runs (data : list ascii) :
  tokens data =
  cons_word (case_fold (split_runs data).1) (case_fold <$> (split_runs data).2).
Proof.
  unfold tokens, alphabetic_runs, cons_word.
  by destruct (split_runs data).1.
Qed.

Lemma scan_loop (data : list ascii) (cur : string) (t : gmap string Z) :
  count_pending (fold_left scan_char data (mkScanner cur t)) =
  count_all (cons_word (cur +:+ case_fold (split_runs data).1)
                       (case_fold <$> (split_runs data).2)) t.
Proof.
  revert cur t. induction data as [|ch data IH]; intros cur t; simpl.
  - unfold case_fold; simpl. rewrite string_app_nil_r.
    unfold count_pending, cons_word; simpl. by destruct (decide (cur = "")).
  - destruct (split_runs data) as [run runs] eqn:Hsplit.
    unfold scan_char. simpl in *. destruct (isalpha ch); simpl.
    + rewrite IH. unfold case_fold; simpl.
      by rewrite string_app_assoc.
    + rewrite IH. unfold case_fold at 3; simpl. rewrite string_app_nil_r.
      assert (Hruns : cons_word (case_fold run) (case_fold <$> runs)
                      = case_fold <$> cons_run run runs).
      { unfold cons_word. by destruct run. }
      change ("" +:+ case_fold run) with (case_fold run). rewrite Hruns.
      unfold count_pending, cons_word; simpl. by destruct (decide (cur = "")).
Qed.

(** The table is the result of counting the tokens one after the other. *)
Lemma count_words_tokens (data : list ascii) :
  count_words data = count_all (tokens data) ∅.
Proof.
  unfold count_words, scanner_init. by rewrite scan_loop, tokens_split_runs.
Qed.

Lemma occurrences_cons (w x : string) (ws : list string) :
  occurrences w (x :: ws) =
  if decide (x = w) then S (occurrences w ws) else occurrences w ws.
Proof. unfold occurrences. rewrite filter_cons. by case_decide. Qed.

Lemma occurrences_zero (w : string) (ws : list string) :
  occurrences w ws = 0%nat ↔ w ∉ ws.
Proof.
  induction ws as [|x ws IH]; [split; [intros _; apply not_elem_of_nil|done]|].
  rewrite occurrences_cons, not_elem_of_cons. case_decide as Hx; [|by rewrite IH; intuition].
  split; [done|]. intros [? _]; congruence.
Qed.

Lemma occurrences_le (w : string) (ws : list string) :
  (occurrences w ws ≤ length ws)%nat.
Proof. apply length_filter. Qed.

(** Counters are kept modulo 2^64. *)
Lemma count_all_lookup (ws : list string) (t : gmap string Z) (w : string) :
  count_all ws t !! w =
  if decide (occurrences w ws = 0%nat) then t !! w
  else Some (wrap64 (default 0 (t !! w) + Z.of_nat (occurrences w ws))).
Proof.
  revert t. induction ws as [|x ws IH]; intros t; [done|].
  change (count_all (x :: ws) t) with (count_all ws (increment x t)).
  rewrite IH, occurrences_cons. unfold increment.
  destruct (decide (x = w)) as [->|Hne].
  - rewrite lookup_insert_eq. simpl.
    destruct (decide (occurrences w ws = 0%nat)) as [Hocc|Hocc].
    + by rewrite Hocc.
    + f_equal. unfold wrap64. rewrite Zplus_mod_idemp_l. f_equal. lia.
  - by rewrite lookup_insert_ne.
Qed.

Lemma count_words_lookup (data : list ascii) (w : string) :
  count_words data !! w =
  if decide (occurrences w (tokens data) = 0%nat) then None
  else Some (wrap64 (Z.of_nat (occurrences w (tokens data)))).
Proof. rewrite count_words_tokens, count_all_lookup. by rewrite lookup_empty. Qed.

Lemma split_runs_length (data : list ascii) :
  (length (cons_run (split_runs data).1 (split_runs data).2) ≤ length data)%nat.
Proof.
  induction data as [|ch data IH]; simpl; [done|].
  destruct (split_runs data) as [run runs]. simpl in *.
  destruct (isalpha ch); simpl; [destruct run; simpl in *; lia | lia].
Qed.

Lemma tokens_length (data : list ascii) :
  (length (tokens data) ≤ length data)%nat.
Proof. unfold tokens, alphabetic_runs. rewrite length_map. apply split_runs_length. Qed.

(** [alphabetic_runs] computes the maximal runs, and they are unique. *)
Lemma split_runs_decompose (data : list ascii) :
  ∃ rest, data = (split_runs data).1 ++ rest
    ∧ forallb isalpha (split_runs data).1 = true
    ∧ (∀ ch, head rest = Some ch → isalpha ch = false)
    ∧ maximal_runs rest (split_runs data).2.
Proof.
  induction data as [|ch data IH]; simpl.
  - exists []. repeat split; [done|constructor].
  - destruct IH as (rest & Hdata & Halpha & Hhead & Hruns).
    destruct (split_runs data) as [run runs]. simpl in *.
    destruct (isalpha ch) eqn:Hch; simpl.
    + exists rest. rewrite Hch. by rewrite <- Hdata.
    + exists (ch :: data). repeat split; [by intros ? [= <-]|].
      apply runs_separator; [done|].
      destruct run as [|c run]; simpl in *; [by subst|].
      rewrite Hdata. by apply (runs_word (c :: run)).
Qed.

Lemma alphabetic_runs_maximal (data : list ascii) :
  maximal_runs data (alphabetic_runs data).
Proof.
  destruct (split_runs_decompose data) as (rest & Hdata & Halpha & Hhead & Hruns).
  unfold alphabetic_runs. destruct (split_runs data) as [[|c run] runs].
  - simpl in *. by subst.
  - simpl in *. rewrite Hdata. by apply (runs_word (c :: run)).
Qed.

Lemma split_runs_app (run data : list ascii) :
  forallb isalpha run = true →
  split_runs (run ++ data) = (run ++ (split_runs data).1, (split_runs data).2).
Proof.
  induction run as [|c run IH]; simpl; [by destruct (split_runs data)|].
  intros [Hc Hrun]%andb_true_iff. by rewrite (IH Hrun), Hc.
Qed.

Lemma split_runs_head (data : list ascii) :
  (∀ ch, head data = Some ch → isalpha ch = false) → (split_runs data).1 = [].
Proof.
  destruct data as [|ch data]; simpl; [done|]. intros Hhead.
  rewrite (Hhead ch eq_refl). by destruct (split_runs data).
Qed.

Lemma maximal_runs_unique (data : list ascii) (runs : list (list ascii)) :
  maximal_runs data runs → runs = alphabetic_runs data.
Proof.
  unfold alphabetic_runs.
  induction 1 as [|ch data runs Hch _ IH|run data runs Hne Halpha Hhead _ IH].
  - done.
  - simpl. destruct (split_runs data) as [r rs]. by rewrite Hch.
  - rewrite split_runs_app by done. rewrite (split_runs_head data Hhead) in *.
    simpl in *. rewrite app_nil_r. destruct run; [done|]. simpl. by f_equal.
Qed.

(** ** The table of a stream *)

Lemma count_words_dom (data : list ascii) (w : string) :
  is_Some (count_words data !! w) ↔ w ∈ tokens data.
Proof.
  rewrite count_words_lookup. case_decide as Hocc.
  - apply occurrences_zero in Hocc. split; [by intros [? ?]|done].
  - split; [|by eauto]. intros _.
    destruct (decide (w ∈ tokens data)) as [|Hnot]; [done|].
    by apply occurrences_zero in Hnot.
Qed.

Lemma count_words_exact (data : list ascii) (w : string) :
  Z.of_nat (length data) < uint64_modulus →
  w ∈ tokens data →
  count_words data !! w = Some (Z.of_nat (occurrences w (tokens data))).
Proof.
  intros Hlen Hw. rewrite count_words_lookup. case_decide as Hocc.
  - by apply occurrences_zero in Hocc.
  - f_equal. unfold wrap64. apply Z.mod_small.
    pose proof (occurrences_le w (tokens data)).
    pose proof (tokens_length data). lia.
Qed.

Lemma count_words_keys (data : list ascii) :
  (map_to_list (count_words data)).*1 ≡ₚ distinct_words (tokens data).
Proof.
  apply NoDup_Permutation.
  - apply NoDup_fst_map_to_list.
  - apply NoDup_remove_dups.
  - intros w. unfold distinct_words.
    rewrite elem_of_remove_dups, <- count_words_dom, list_elem_of_fmap.
    split.
    + intros ([w' c] & -> & Hin). apply elem_of_map_to_list in Hin. by eexists.
    + intros [c Hc]. exists (w, c). by rewrite elem_of_map_to_list.
Qed.

Lemma indicator_sum (x : string) (ds : list string) :
  NoDup ds → x ∈ ds →
  sum_list ((λ d, if decide (x = d) then 1 else 0)%nat <$> ds) = 1%nat.
Proof.
  induction 1 as [|d ds Hd Hds IH]; [by intros ?%elem_of_nil|].
  intros Hx. csimpl. case_decide as Hxd.
  - subst d. f_equal. clear IH Hx.
    induction ds as [|d ds IH]; [done|]. csimpl.
    apply not_elem_of_cons in Hd as [Hne Hd].
    apply NoDup_cons in Hds as [_ Hds].
    rewrite decide_False by done. by apply IH.
  - apply elem_of_cons in Hx as [?|Hx]; [done|]. by rewrite IH.
Qed.

Lemma sum_occurrences (ds ws : list string) :
  NoDup ds → (∀ w, w ∈ ws → w ∈ ds) →
  sum_list ((λ d, occurrences d ws) <$> ds) = length ws.
Proof.
  intros Hds. induction ws as [|x ws IH]; intros Hsub.
  - clear. induction ds as [|d ds IH]; [done|]. csimpl. by rewrite IH.
  - assert (Hstep : ∀ l : list string,
      sum_list ((λ d, occurrences d (x :: ws)) <$> l) =
      (sum_list ((λ d, if decide (x = d) then 1 else 0)%nat <$> l)
       + sum_list ((λ d, occurrences d ws) <$> l))%nat).
    { clear. induction l as [|d l IHl]; [done|]. csimpl.
      rewrite IHl, occurrences_cons. case_decide; lia. }
    rewrite Hstep, indicator_sum, IH; [done| |done|].
    + intros w Hw. apply Hsub. by right.
    + apply Hsub. by left.
Qed.

Lemma total_count_perm (l1 l2 : list StatsData) :
  l1 ≡ₚ l2 → total_count l1 = total_count l2.
Proof. induction 1; simpl in *; lia. Qed.

Lemma total_count_entries (ws : list string) (entries : list (string * Z)) :
  (∀ w c, (w, c) ∈ entries → c = Z.of_nat (occurrences w ws)) →
  total_count (to_record <$> entries) =
  Z.of_nat (sum_list ((λ d, occurrences d ws) <$> entries.*1)).
Proof.
  induction entries as [|[w c] entries IH]; intros Hall; [done|].
  csimpl. rewrite IH.
  - rewrite (Hall w c) by left. lia.
  - intros w' c' Hin. apply Hall. by right.
Qed.

Lemma ConvertAndSortStats_perm (env : environment) (t : gmap string Z) :
  ConvertAndSortStats env t ≡ₚ to_record <$> map_to_list t.
Proof.
  unfold ConvertAndSortStats. rewrite ParallelMergeSort_perm.
  apply fmap_Permutation, visit_entries.
Qed.

(** ** File streams under the default exception mask *)

Lemma read_loop_no_throw (data : list ascii) (s : scanner) :
  read_loop data false s = inr (fold_left scan_char data s).
Proof. revert s. induction data as [|ch data IH]; intros s; simpl; auto. Qed.

Lemma ReadFileAndCountStats_data (env : environment) (input_filename : string)
    (data : list ascii) (read_error : bool) (p : process) :
  open_for_reading env input_filename = InputData data read_error →
  ReadFileAndCountStats env input_filename p = (inr (count_words data), p).
Proof.
  intros Hopen. unfold ReadFileAndCountStats. rewrite Hopen. simpl.
  unfold mbind, M_bind, bind, try_catch, lift.
  by rewrite read_loop_no_throw.
Qed.

(** C2: for every stream the input file delivers (shorter than 2^64 bytes,
    so that no 64-bit counter wraps), the table has exactly one entry per
    distinct case-folded maximal alphabetic run, each with the number of
    occurrences of that run; the sorted sequence has as many records as there
    are distinct words and its counts add up to the number of tokens. *)
Theorem counting_is_exact (env : environment) (input_filename : string)
    (data : list ascii) (read_error : bool) (p : process) :
  open_for_reading env input_filename = InputData data read_error →
  Z.of_nat (length data) < uint64_modulus →
  ∃ t, ReadFileAndCountStats env input_filename p = (inr t, p)
    ∧ (∀ w, is_Some (t !! w) ↔ w ∈ tokens data)
    ∧ (∀ w, w ∈ tokens data →
            t !! w = Some (Z.of_nat (occurrences w (tokens data))))
    ∧ length (ConvertAndSortStats env t) = length (distinct_words (tokens data))
    ∧ total_count (ConvertAndSortStats env t) = Z.of_nat (length (tokens data)).
Proof.
  intros Hopen Hlen. exists (count_words data).
  split; [by eapply ReadFileAndCountStats_data|].
  split; [apply count_words_dom|].
  split; [intros w; by apply count_words_exact|].
  split.
  - rewrite ConvertAndSortStats_perm, length_fmap.
    by rewrite <- (length_fmap fst), count_words_keys.
  - rewrite (total_count_perm _ _ (ConvertAndSortStats_perm env _)).
    rewrite (total_count_entries (tokens data)).
    + f_equal. apply sum_occurrences; [apply NoDup_fst_map_to_list|].
      intros w Hw. rewrite count_words_keys. by apply elem_of_remove_dups.
    + intros w c Hin. apply elem_of_map_to_list in Hin.
      assert (Hw : w ∈ tokens data) by (apply count_words_dom; eauto).
      rewrite (count_words_exact data w Hlen Hw) in Hin. congruence.
Qed.

Lemma write_loop_accepted (stats : list StatsData) (f : ofstream) :
  out_write_error f = false →
  write_loop stats f =
  inr (mkOfstream (out_is_open f) (out_contents f +:+ output_lines stats)
                  false (out_exceptions f)).
Proof.
  revert f. induction stats as [|r stats IH]; intros [o c e x] He;
    simpl in *; subst e.
  - by rewrite string_app_nil_r.
  - unfold insert_string; simpl. rewrite IH by done. simpl.
    unfold output_line. by rewrite !string_app_assoc.
Qed.

Lemma write_loop_rejected (stats : list StatsData) (f : ofstream) :
  out_write_error f = true → out_exceptions f = false →
  write_loop stats f = inr f.
Proof.
  intros He Hx.
  assert (Hins : ∀ s, insert_string s f = inr f)
    by (intros s; unfold insert_string; by rewrite He, Hx).
  induction stats as [|r stats IH]; [done|].
  simpl. by repeat (rewrite Hins; simpl).
Qed.

Lemma ConvertAndSortStats_std_sort (env : environment) (t : gmap string Z) :
  ConvertAndSortStats env t = std_sort (to_record <$> map_to_list t).
Proof.
  unfold ConvertAndSortStats. rewrite ParallelMergeSort_std_sort.
  apply std_sort_Permutation, fmap_Permutation, visit_entries.
Qed.

Lemma TimeLogger_new_run (clock : nat → Z) (p : process) :
  ∃ tl p', TimeLogger_new clock p = (inr tl, p') ∧ cerr p' = cerr p.
Proof. do 2 eexists. split; [reflexivity|done]. Qed.

Lemma LogTime_run (clock : nat → Z) (tl : TimeLogger) (text : string)
    (p : process) :
  ∃ tl' p', LogTime clock tl text p = (inr tl', p') ∧ cerr p' = cerr p.
Proof.
  unfold LogTime, steady_clock_now, cout_put, mbind, M_bind, bind. simpl.
  do 2 eexists. split; [reflexivity|done].
Qed.

Lemma main_run (env : environment) (p : process) :
  let k := run_summary (argv env) (open_for_reading env) (open_for_writing env) in
  ∃ p', main env p = (inr (summary_result k), p')
        ∧ cerr p' = cerr p +:+ summary_diagnostic k.
Proof.
  unfold main, run_summary, arg.
  destruct (argv env) as [|a0 [|a1 [|a2 [|a3 rest]]]]; simpl;
    try (eexists; split; [reflexivity|done]).
  unfold mbind at 1, M_bind at 1, bind at 1.
  destruct (TimeLogger_new_run (steady_clock env) p) as (tl0 & p0 & -> & <-).
  unfold mbind at 1, M_bind at 1, bind at 1, attempt.
  destruct (open_for_reading env a1) as [|data read_error] eqn:Hin.
  - unfold ReadFileAndCountStats. rewrite Hin. simpl.
    eexists; split; [reflexivity|]. simpl. by rewrite string_app_assoc.
  - rewrite (ReadFileAndCountStats_data env a1 data read_error p0 Hin).
    unfold mbind at 1, M_bind at 1, bind at 1.
    destruct (LogTime_run (steady_clock env) tl0 "read and count stats" p0)
      as (tl1 & p1 & -> & <-).
    unfold mbind at 1, M_bind at 1, bind at 1.
    destruct (LogTime_run (steady_clock env) tl1 "sort stats" p1)
      as (tl2 & p2 & -> & <-).
    unfold mbind at 1, M_bind at 1, bind at 1.
    rewrite ConvertAndSortStats_std_sort.
    unfold WriteStatsToFile.
    destruct (open_for_writing env a2) as [|write_error] eqn:Hout; simpl.
    + eexists; split; [reflexivity|]. simpl. by rewrite string_app_assoc.
    + unfold mbind at 1, M_bind at 1, bind at 1, try_catch, lift.
      destruct write_error.
      * rewrite write_loop_rejected by done. simpl.
        unfold mbind at 1, M_bind at 1, bind at 1.
        destruct (LogTime_run (steady_clock env) tl2 "write stats" p2)
          as (tl3 & p3 & -> & <-).
        eexists; split; [reflexivity|]. simpl. by rewrite string_app_nil_r.
      * rewrite write_loop_accepted by done. simpl.
        unfold mbind at 1, M_bind at 1, bind at 1.
        destruct (LogTime_run (steady_clock env) tl2 "write stats" p2)
          as (tl3 & p3 & -> & <-).
        eexists; split; [reflexivity|]. simpl. by rewrite string_app_nil_r.
Qed.

(** ** The whole run *)

Lemma ConvertAndSortStats_distinct_words (env : environment)
    (t : gmap string Z) :
  NoDup (word <$> ConvertAndSortStats env t).
Proof.
  rewrite ConvertAndSortStats_perm, <- list_fmap_compose.
  apply NoDup_fst_map_to_list.
Qed.

(** C5: on the input "The cat sat. The CAT sat!" the table is
    {the: 2, cat: 2, sat: 2} and the output file holds exactly the lines
    "cat 2", "sat 2", "the 2", in this order, each ended by a newline,
    whatever the iteration order of the table and the available
    parallelism. *)
Theorem scenario_the_cat_sat (it : unordered_iteration) (hc : Z)
    (clock : nat → Z) :
  ReadFileAndCountStats
    (mkEnvironment ["./freq"; "in.txt"; "out.txt"]
       (λ _, InputData (list_ascii_of_string "The cat sat. The CAT sat!") false)
       (λ _, OutputDevice false) hc it clock)
    "in.txt" process_init
  = (inr {[ "the" := 2; "cat" := 2; "sat" := 2 ]}, process_init)
  ∧ (main
       (mkEnvironment ["./freq"; "in.txt"; "out.txt"]
          (λ _, InputData (list_ascii_of_string "The cat sat. The CAT sat!")
                          false)
          (λ _, OutputDevice false) hc it clock)
       process_init).1
    = inr (0, Some ("cat 2" +:+ newline +:+ "sat 2" +:+ newline
                    +:+ "the 2" +:+ newline)).
Proof.
  split.
  - erewrite ReadFileAndCountStats_data by reflexivity.
    by vm_compute.
  - match goal with |- (main ?env ?p).1 = _ =>
      destruct (main_run env p) as (p' & -> & _) end.
    by vm_compute.
Qed.

(** C8, where the code departs from the claim: a failed read, and a failed
    write, leave standard error empty; the run goes on with the bytes read so
    far and still returns 0. *)
Theorem stream_failures_not_reported :
  main (mkEnvironment ["./freq"; "dir"; "out.txt"]
          (λ _, InputData (list_ascii_of_string "ab ab") true)
          (λ _, OutputDevice false) 8 table_order (λ _, 0))
       process_init
  = (inr (0, Some ("ab 2" +:+ newline)),
     mkProcess ""
       ("Time spent for read and count stats: 0s 0ms" +:+ newline
        +:+ "Time spent for sort stats: 0s 0ms" +:+ newline
        +:+ "Time spent for write stats: 0s 0ms" +:+ newline) 4)
  ∧ cerr (main (mkEnvironment ["./freq"; "in.txt"; "/dev/full"]
                  (λ _, InputData (list_ascii_of_string "ab ab") false)
                  (λ _, OutputDevice true) 8 table_order (λ _, 0))
               process_init).2 = ""
  ∧ (main (mkEnvironment ["./freq"; "in.txt"; "/dev/full"]
             (λ _, InputData (list_ascii_of_string "ab ab") false)
             (λ _, OutputDevice true) 8 table_order (λ _, 0))
          process_init).1 = inr (0, Some "").
Proof. by vm_compute. Qed.

(** C10: the value returned and the output file written depend on the
    arguments and the files alone, not on the order in which the table is
    iterated, the available parallelism or the clock; and the records sorted
    never share a word. *)
Theorem output_is_deterministic (env1 env2 : environment) (p1 p2 : process) :
  argv env1 = argv env2 →
  open_for_reading env1 = open_for_reading env2 →
  open_for_writing env1 = open_for_writing env2 →
  (main env1 p1).1 = (main env2 p2).1
  ∧ ∀ t, NoDup (word <$> ConvertAndSortStats env1 t)
         ∧ ConvertAndSortStats env1 t = ConvertAndSortStats env2 t.
Proof.
  intros Hargv Hin Hout. split.
  - destruct (main_run env1 p1) as (p1' & -> & _).
    destruct (main_run env2 p2) as (p2' & -> & _).
    simpl. by rewrite Hargv, Hin, Hout.
  - intros t. split; [apply ConvertAndSortStats_distinct_words|].
    by rewrite !ConvertAndSortStats_std_sort.
Qed.

(** ** Instances of the claims *)

Lemma sorter_output_in_order_witness :
  (ParallelMergeSort sample_records 4).1 !! 1%nat = Some (mkStatsData "a" 1)
  ∧ (ParallelMergeSort sample_records 4).1 !! 2%nat = Some (mkStatsData "b" 1)
  ∧ in_order (mkStatsData "a" 1) (mkStatsData "b" 1).
Proof.
  split; [by vm_compute|]. split; [by vm_compute|].
  apply (sorter_output_in_order sample_records 4 1); by vm_compute.
Defined.

Lemma counting_is_exact_witness :
  open_for_reading (sample_environment "Ab ab, c" table_order 8 (λ _, 0))
                   "in.txt"
  = InputData (list_ascii_of_string "Ab ab, c") false
  ∧ Z.of_nat (length (list_ascii_of_string "Ab ab, c")) < uint64_modulus
  ∧ ∃ t,
      ReadFileAndCountStats
        (sample_environment "Ab ab, c" table_order 8 (λ _, 0))
        "in.txt" process_init = (inr t, process_init)
      ∧ (∀ w, is_Some (t !! w)
              ↔ w ∈ tokens (list_ascii_of_string "Ab ab, c"))
      ∧ (∀ w, w ∈ tokens (list_ascii_of_string "Ab ab, c") →
              t !! w = Some (Z.of_nat
                (occurrences w (tokens (list_ascii_of_string "Ab ab, c")))))
      ∧ length (ConvertAndSortStats
                  (sample_environment "Ab ab, c" table_order 8 (λ _, 0)) t)
        = length (distinct_words (tokens (list_ascii_of_string "Ab ab, c")))
      ∧ total_count (ConvertAndSortStats
                       (sample_environment "Ab ab, c" table_order 8 (λ _, 0)) t)
        = Z.of_nat (length (tokens (list_ascii_of_string "Ab ab, c"))).
Proof.
  split; [reflexivity|]. split; [by vm_compute|].
  apply (counting_is_exact
           (sample_environment "Ab ab, c" table_order 8 (λ _, 0)) "in.txt"
           (list_ascii_of_string "Ab ab, c") false process_init);
    [reflexivity | by vm_compute].
Defined.

(** C4 as stated fails at the threshold: a segment of exactly 1024 records
    with budget 2 is sorted sequentially, although its length is not below
    1024 and its budget is not below 2. *)
Lemma threshold_segment_is_base_case :
  (ParallelMergeSort (repeat (mkStatsData "a" 1) 1024) 2).2
  = Sequential 1024 2
  ∧ ¬ ((length (repeat (mkStatsData "a" 1) 1024) < 1024)%nat ∨ 2 < 2).
Proof.
  split.
  - rewrite ParallelMergeSort_base by (by rewrite repeat_length).
    by rewrite repeat_length.
  - rewrite repeat_length. lia.
Qed.

Lemma base_case_exactly_witness :
  0 ≤ 2 < uint_modulus
  ∧ ParallelMergeSort (repeat (mkStatsData "a" 1) 1025) 2 =
    if decide ((length (repeat (mkStatsData "a" 1) 1025) ≤ 1024)%nat ∨ 2 < 2)
    then
      (std_sort (repeat (mkStatsData "a" 1) 1025),
       Sequential (length (repeat (mkStatsData "a" 1) 1025)) 2)
    else
      let left :=
        ParallelMergeSort
          (take (length (repeat (mkStatsData "a" 1) 1025) / 2)
                (repeat (mkStatsData "a" 1) 1025)) (2 - 2) in
      let right :=
        ParallelMergeSort
          (drop (length (repeat (mkStatsData "a" 1) 1025) / 2)
                (repeat (mkStatsData "a" 1) 1025)) (2 - 2) in
      (inplace_merge left.1 right.1,
       Forked (length (repeat (mkStatsData "a" 1) 1025)) 2 left.2 right.2).
Proof.
  split; [by vm_compute|].
  apply (base_case_exactly (repeat (mkStatsData "a" 1) 1025) 2).
  by vm_compute.
Defined.

Lemma sorter_idempotent_witness :
  [mkStatsData "b" 1; mkStatsData "a" 1; mkStatsData "a" 2]
    ≡ₚ (ParallelMergeSort sample_records 4).1
  ∧ (ParallelMergeSort
       [mkStatsData "b" 1; mkStatsData "a" 1; mkStatsData "a" 2] 0).1
    = (ParallelMergeSort sample_records 4).1.
Proof.
  assert (Hperm : [mkStatsData "b" 1; mkStatsData "a" 1; mkStatsData "a" 2]
                    ≡ₚ (ParallelMergeSort sample_records 4).1).
  { vm_compute.
    exact (Permutation_rev
             [mkStatsData "b" 1; mkStatsData "a" 1; mkStatsData "a" 2]). }
  split; [exact Hperm|].
  exact (sorter_idempotent sample_records _ 4 0 Hperm).
Defined.

(** C7 as stated fails on a single hardware thread: the budget is 0, not
    max(1, floor(1 / 2)) = 1. *)
Lemma single_thread_budget_is_zero :
  initial_budget 1 ≠ Z.max 1 (1 / 2).
Proof. by vm_compute. Qed.

Lemma initial_budget_is_half_witness :
  0 ≤ 8 < uint_modulus
  ∧ budget (ParallelMergeSort sample_records (initial_budget 8)).2 = 8 / 2
  ∧ initial_budget 8 = (if decide (2 ≤ 8) then Z.max 1 (8 / 2) else 0).
Proof.
  split; [by vm_compute|].
  apply (initial_budget_is_half sample_records 8). by vm_compute.
Defined.

Lemma output_is_deterministic_witness :
  argv (sample_environment "b a b" table_order 1 (λ _, 0))
  = argv (sample_environment "b a b" reversed_order 8 (λ n, Z.of_nat n))
  ∧ open_for_reading (sample_environment "b a b" table_order 1 (λ _, 0))
    = open_for_reading
        (sample_environment "b a b" reversed_order 8 (λ n, Z.of_nat n))
  ∧ open_for_writing (sample_environment "b a b" table_order 1 (λ _, 0))
    = open_for_writing
        (sample_environment "b a b" reversed_order 8 (λ n, Z.of_nat n))
  ∧ ((main (sample_environment "b a b" table_order 1 (λ _, 0))
           process_init).1
     = (main (sample_environment "b a b" reversed_order 8 (λ n, Z.of_nat n))
             process_init).1
     ∧ ∀ t,
         NoDup (word <$> ConvertAndSortStats
                           (sample_environment "b a b" table_order 1 (λ _, 0))
                           t)
         ∧ ConvertAndSortStats
             (sample_environment "b a b" table_order 1 (λ _, 0)) t
           = ConvertAndSortStats
               (sample_environment "b a b" reversed_order 8
                                   (λ n, Z.of_nat n)) t).
Proof.
  split; [reflexivity|]. split; [reflexivity|]. split; [reflexivity|].
  apply (output_is_deterministic
           (sample_environment "b a b" table_order 1 (λ _, 0))
           (sample_environment "b a b" reversed_order 8 (λ n, Z.of_nat n))
           process_init process_init); reflexivity.
Defined.

(** * Further properties of the code *)

(** ** The comparator and the sorter *)

(** X1: [StatsData::operator<] is a strict total order on records: it is
    irreflexive, asymmetric and transitive, and two records neither of which
    is less than the other are equal; in particular it is a strict weak
    ordering, as [std::sort] and [std::inplace_merge] require. *)
Theorem StatsData_lt_strict_total_order :
  (∀ a, StatsData_lt a a = false)
  ∧ (∀ a b, StatsData_lt a b = true → StatsData_lt b a = false)
  ∧ (∀ a b c, StatsData_lt a b = true → StatsData_lt b c = true →
              StatsData_lt a c = true)
  ∧ (∀ a b, StatsData_lt a b = false → StatsData_lt b a = false → a = b).
Proof.
  split; [apply StatsData_lt_irrefl|].
  split; [|split; [apply StatsData_lt_trans|apply StatsData_lt_connex]].
  intros a b Hab. destruct (StatsData_lt b a) eqn:Hba; [|done].
  pose proof (StatsData_lt_trans _ _ _ Hab Hba) as Haa.
  by rewrite StatsData_lt_irrefl in Haa.
Qed.

(** X2: the sorter rearranges its segment: the result holds the same records
    with the same multiplicities, so none is lost or duplicated, and the
    length is kept. *)
Theorem sorter_keeps_records (l : list StatsData) (N : Z) :
  (ParallelMergeSort l N).1 ≡ₚ l
  ∧ length (ParallelMergeSort l N).1 = length l.
Proof.
  pose proof (ParallelMergeSort_perm l N) as Hperm.
  split; [done|]. by rewrite Hperm.
Qed.

(** X3: the first record of the sorted sequence has the largest count of the
    whole input. *)
Theorem most_frequent_first (l : list StatsData) (N : Z) (a : StatsData)
    (rest : list StatsData) :
  (ParallelMergeSort l N).1 = a :: rest →
  ∀ r, r ∈ l → count r ≤ count a.
Proof.
  intros Hout r Hr.
  pose proof (std_sort_sorted l) as Hsorted.
  rewrite <- ParallelMergeSort_std_sort with (N := N) in Hsorted.
  rewrite <- (ParallelMergeSort_perm l N), Hout in Hr.
  rewrite Hout in Hsorted. apply StronglySorted_inv in Hsorted as [_ Hall].
  apply elem_of_cons in Hr as [->|Hr]; [lia|].
  rewrite Forall_forall in Hall. specialize (Hall r Hr).
  apply not_after_in_order in Hall. unfold in_order in Hall. lia.
Qed.

Lemma most_frequent_first_witness :
  (ParallelMergeSort sample_records 4).1
  = mkStatsData "a" 2 :: [mkStatsData "a" 1; mkStatsData "b" 1]
  ∧ ∀ r, r ∈ sample_records → count r ≤ count (mkStatsData "a" 2).
Proof.
  split; [by vm_compute|].
  apply (most_frequent_first sample_records 4 (mkStatsData "a" 2)
           [mkStatsData "a" 1; mkStatsData "b" 1]).
  by vm_compute.
Defined.

(** X20: the sorter returns its input unchanged exactly when no record of
    the input is less than a record before it. *)
Theorem sorter_fixes_sorted_input (l : list StatsData) (N : Z) :
  (ParallelMergeSort l N).1 = l ↔ sorted_range l.
Proof.
  rewrite ParallelMergeSort_std_sort. split.
  - intros <-. apply std_sort_sorted.
  - intros Hsorted. symmetry. by apply std_sort_unique.
Qed.

(** ** ConvertAndSortStats *)

(** X4: the sorted sequence holds exactly the entries of the table: a record
    occurs in it if and only if the table maps its word to its count, there
    are as many records as entries, and rebuilding a table from the records
    gives the table back. *)
Theorem records_are_the_table_entries (env : environment) (t : gmap string Z) :
  (∀ r, r ∈ ConvertAndSortStats env t ↔ t !! word r = Some (count r))
  ∧ length (ConvertAndSortStats env t) = size t
  ∧ list_to_map (to_entry <$> ConvertAndSortStats env t) = t.
Proof.
  pose proof (ConvertAndSortStats_perm env t) as Hperm.
  assert (Hentries : to_entry <$> ConvertAndSortStats env t ≡ₚ map_to_list t).
  { rewrite Hperm, <- list_fmap_compose.
    rewrite (list_fmap_ext _ id (map_to_list t)); [by rewrite list_fmap_id|].
    by intros _ [w c] _. }
  split; [|split].
  - intros [w c]. rewrite Hperm, list_elem_of_fmap. simpl. split.
    + intros ([w' c'] & [= -> ->] & Hin). by apply elem_of_map_to_list.
    + intros Hlook. exists (w, c). by rewrite elem_of_map_to_list.
  - by rewrite Hperm, length_fmap, length_map_to_list.
  - rewrite <- (list_to_map_to_list t) at 2.
    apply list_to_map_proper; [|done].
    rewrite Hentries. apply NoDup_fst_map_to_list.
Qed.

(** X5: in the sequence built from a table, earlier records are strictly
    less than later ones under [operator<]: no two records tie, because no
    two share a word. *)
Theorem table_records_strictly_ordered (env : environment)
    (t : gmap string Z) (i j : nat) (A B : StatsData) :
  (i < j)%nat →
  ConvertAndSortStats env t !! i = Some A →
  ConvertAndSortStats env t !! j = Some B →
  StatsData_lt A B = true.
Proof.
  intros Hij HA HB.
  assert (Hle : not_after A B).
  { apply (sorted_range_lookup (ConvertAndSortStats env t) i j); auto.
    rewrite ConvertAndSortStats_std_sort. apply std_sort_sorted. }
  apply not_after_iff in Hle as [->|Hlt]; [|done].
  pose proof (ConvertAndSortStats_distinct_words env t) as Hnodup.
  assert (i = j); [|lia].
  apply (NoDup_lookup _ i j (word B) Hnodup); by rewrite list_lookup_fmap, ?HA, ?HB.
Qed.

Lemma table_records_strictly_ordered_witness :
  (0 < 2)%nat
  ∧ ConvertAndSortStats (sample_environment "" reversed_order 8 (λ _, 0))
      {[ "the" := 2; "cat" := 2; "a" := 5 ]} !! 0%nat
    = Some (mkStatsData "a" 5)
  ∧ ConvertAndSortStats (sample_environment "" reversed_order 8 (λ _, 0))
      {[ "the" := 2; "cat" := 2; "a" := 5 ]} !! 2%nat
    = Some (mkStatsData "the" 2)
  ∧ StatsData_lt (mkStatsData "a" 5) (mkStatsData "the" 2) = true.
Proof.
  split; [lia|]. split; [by vm_compute|]. split; [by vm_compute|].
  apply (table_records_strictly_ordered
           (sample_environment "" reversed_order 8 (λ _, 0))
           {[ "the" := 2; "cat" := 2; "a" := 5 ]} 0 2);
    [lia | by vm_compute | by vm_compute].
Defined.

(** ** The call tree of the sorter *)

Lemma async_tasks_bound (t : call_tree) :
  (async_tasks t < 2 ^ fork_depth t)%nat.
Proof.
  induction t as [len N|len N tl IHl tr IHr]; simpl; [lia|].
  pose proof (Nat.pow_le_mono_r 2 (fork_depth tl)
                (Nat.max (fork_depth tl) (fork_depth tr)) ltac:(lia) ltac:(lia)).
  pose proof (Nat.pow_le_mono_r 2 (fork_depth tr)
                (Nat.max (fork_depth tl) (fork_depth tr)) ltac:(lia) ltac:(lia)).
  lia.
Qed.

Lemma base_case_false (len : nat) (N : Z) :
  base_case len N = false → (1024 < len)%nat ∧ 2 ≤ N.
Proof.
  unfold base_case. intros [Hlen HN]%orb_false_elim.
  apply Z.leb_gt in Hlen. apply Z.ltb_ge in HN. lia.
Qed.

(** X6: the budget bounds the forking: with budget [N] the calls nest at
    most [N / 2] forks deep, and a run dispatches fewer than
    [2 ^ depth] asynchronous tasks; a budget below 2 dispatches none. *)
Theorem budget_bounds_forking (l : list StatsData) (N : Z) :
  0 ≤ N < uint_modulus →
  Z.of_nat (fork_depth (ParallelMergeSort l N).2) ≤ N / 2
  ∧ (async_tasks (ParallelMergeSort l N).2
     < 2 ^ fork_depth (ParallelMergeSort l N).2)%nat.
Proof.
  intros HN. split; [|apply async_tasks_bound].
  remember (length l) as n eqn:Hn. revert l N Hn HN.
  induction (lt_wf n) as [n _ IH]. intros l N -> HN.
  destruct (base_case (length l) N) eqn:Hcase.
  - rewrite ParallelMergeSort_base by done. simpl.
    apply Z.div_pos; lia.
  - rewrite ParallelMergeSort_split by done. simpl.
    destruct (halves_shorter l N Hcase) as [[_ Hl] [_ Hr]].
    apply base_case_false in Hcase as [_ HN2].
    assert (Hwrap : wrap32 (N - 2) = N - 2).
    { unfold wrap32. apply Z.mod_small. unfold uint_modulus in *. lia. }
    rewrite Hwrap.
    assert (HN' : 0 ≤ N - 2 < uint_modulus) by lia.
    pose proof (IH _ Hl (left_half l) (N - 2) eq_refl HN').
    pose proof (IH _ Hr (right_half l) (N - 2) eq_refl HN').
    assert ((N - 2) / 2 = N / 2 - 1) by (Z.div_mod_to_equations; lia).
    lia.
Qed.

Lemma budget_bounds_forking_witness :
  0 ≤ 4 < uint_modulus
  ∧ Z.of_nat (fork_depth (ParallelMergeSort (descending_counts 4100) 4).2)
    ≤ 4 / 2
  ∧ (async_tasks (ParallelMergeSort (descending_counts 4100) 4).2
     < 2 ^ fork_depth (ParallelMergeSort (descending_counts 4100) 4).2)%nat.
Proof.
  split; [by vm_compute|].
  apply (budget_bounds_forking (descending_counts 4100) 4). by vm_compute.
Defined.

(** X7: forking is also bounded by the length: a call that forks [d]
    levels deep works on more than [512 * 2 ^ d] records, so a segment of at
    most 1024 records is never split, whatever the budget. *)
Theorem fork_depth_bounded_by_length (l : list StatsData) (N : Z) :
  (ParallelMergeSort l N).2 = Sequential (length l) N
  ∨ (512 * 2 ^ fork_depth (ParallelMergeSort l N).2 < length l)%nat.
Proof.
  remember (length l) as n eqn:Hn. revert l N Hn.
  induction (lt_wf n) as [n _ IH]. intros l N ->.
  destruct (base_case (length l) N) eqn:Hcase.
  - left. by rewrite ParallelMergeSort_base.
  - right. rewrite ParallelMergeSort_split by done. cbn [snd fork_depth].
    destruct (halves_shorter l N Hcase) as [[_ Hl] [_ Hr]].
    apply base_case_false in Hcase as [Hlen _].
    assert (Hhalf : (2 * length (left_half l) ≤ length l
                     ∧ 2 * length (right_half l) ≤ length l + 1)%nat).
    { unfold left_half, right_half, mid in *.
      rewrite length_take, length_drop in *.
      pose proof (Nat.div_mod_eq (length l) 2).
      pose proof (Nat.mod_upper_bound (length l) 2). lia. }
    assert (Hleft : (1024 * 2 ^ fork_depth
               (ParallelMergeSort (left_half l) (wrap32 (N - 2))).2
             < length l)%nat).
    { destruct (IH _ Hl (left_half l) (wrap32 (N - 2)) eq_refl) as [->|Hd].
      - cbn [fork_depth]. rewrite Nat.pow_0_r. lia.
      - lia. }
    assert (Hright : (1024 * 2 ^ fork_depth
               (ParallelMergeSort (right_half l) (wrap32 (N - 2))).2
             < length l)%nat).
    { destruct (IH _ Hr (right_half l) (wrap32 (N - 2)) eq_refl) as [->|Hd].
      - cbn [fork_depth]. rewrite Nat.pow_0_r. lia.
      - lia. }
    rewrite Nat.pow_succ_r'.
    destruct (Nat.max_spec
                (fork_depth (ParallelMergeSort (left_half l) (wrap32 (N - 2))).2)
                (fork_depth (ParallelMergeSort (right_half l) (wrap32 (N - 2))).2))
      as [[_ ->]|[_ ->]]; lia.
Qed.

(** X8: the segments handed to [std::sort] partition the input: their
    lengths add up to the length of the input, and when the input is split
    at all every one of them has at least 512 records. *)
Theorem sequential_segments_partition (l : list StatsData) (N : Z) :
  sum_list (sequential_segments (ParallelMergeSort l N).2) = length l
  ∧ Forall (λ len, len = length l ∨ (512 ≤ len)%nat)
           (sequential_segments (ParallelMergeSort l N).2).
Proof.
  remember (length l) as n eqn:Hn. revert l N Hn.
  induction (lt_wf n) as [n _ IH]. intros l N ->.
  destruct (base_case (length l) N) eqn:Hcase.
  - rewrite ParallelMergeSort_base by done. cbn [snd sequential_segments].
    split; [simpl; lia|]. constructor; [by left|constructor].
  - rewrite ParallelMergeSort_split by done. cbn [snd sequential_segments].
    destruct (halves_shorter l N Hcase) as [[_ Hl] [_ Hr]].
    apply base_case_false in Hcase as [Hlen _].
    destruct (IH _ Hl (left_half l) (wrap32 (N - 2)) eq_refl) as [Hsl Hfl].
    destruct (IH _ Hr (right_half l) (wrap32 (N - 2)) eq_refl) as [Hsr Hfr].
    assert (Hhalf : (512 ≤ length (left_half l)
                     ∧ 512 ≤ length (right_half l)
                     ∧ length (left_half l) + length (right_half l)
                       = length l)%nat).
    { unfold left_half, right_half, mid in *.
      rewrite length_take, length_drop in *.
      pose proof (Nat.div_mod_eq (length l) 2).
      pose proof (Nat.mod_upper_bound (length l) 2). lia. }
    split.
    + rewrite sum_list_with_app, Hsl, Hsr. lia.
    + apply Forall_app. split.
      * eapply Forall_impl; [exact Hfl|]. cbv beta.
        intros len [->|?]; right; lia.
      * eapply Forall_impl; [exact Hfr|]. cbv beta.
        intros len [->|?]; right; lia.
Qed.

(** ** The counting loop, further *)

Lemma tolower_facts (ch : ascii) :
  isalpha (tolower ch) = isalpha ch
  ∧ tolower (tolower ch) = tolower ch
  ∧ (isalpha ch = true → islower (tolower ch) = true).
Proof.
  destruct ch as [b0 b1 b2 b3 b4 b5 b6 b7].
  destruct b0, b1, b2, b3, b4, b5, b6, b7; by vm_compute.
Qed.

Lemma maximal_runs_letters (data : list ascii) (runs : list (list ascii)) :
  maximal_runs data runs →
  Forall (λ run, run ≠ [] ∧ forallb isalpha run = true) runs.
Proof. induction 1; [constructor|done|by constructor]. Qed.

Lemma case_fold_lowercase (run : list ascii) :
  forallb isalpha run = true →
  forallb islower (list_ascii_of_string (case_fold run)) = true.
Proof.
  unfold case_fold. rewrite list_ascii_of_string_of_list_ascii.
  induction run as [|c run IH]; simpl; [done|].
  intros [Hc Hrun]%andb_true_iff.
  by rewrite (proj2 (proj2 (tolower_facts c)) Hc), IH.
Qed.

Lemma count_words_default (data : list ascii) (w : string) :
  default 0 (count_words data !! w)
  = wrap64 (Z.of_nat (occurrences w (tokens data))).
Proof.
  rewrite count_words_lookup. case_decide as Hocc; [|done].
  by rewrite Hocc.
Qed.

Lemma occurrences_app (w : string) (ws1 ws2 : list string) :
  occurrences w (ws1 ++ ws2) = (occurrences w ws1 + occurrences w ws2)%nat.
Proof. unfold occurrences. by rewrite filter_app, length_app. Qed.

(** X9: every word in the table is non-empty and consists of lower-case
    ASCII letters only; in particular the table never holds the empty
    string, an upper-case letter, a digit or a separator. *)
Theorem table_words_are_lowercase (data : list ascii) (w : string) :
  is_Some (count_words data !! w) →
  w ≠ "" ∧ forallb islower (list_ascii_of_string w) = true.
Proof.
  intros Hw%count_words_dom. unfold tokens in Hw.
  apply list_elem_of_fmap in Hw as (run & -> & Hrun).
  pose proof (maximal_runs_letters _ _ (alphabetic_runs_maximal data)) as Hall.
  rewrite Forall_forall in Hall. destruct (Hall run Hrun) as [Hne Halpha].
  split; [by rewrite case_fold_nil_iff | by apply case_fold_lowercase].
Qed.

Lemma table_words_are_lowercase_witness :
  is_Some (count_words (list_ascii_of_string "Ab ab, c") !! "ab")
  ∧ "ab" ≠ "" ∧ forallb islower (list_ascii_of_string "ab") = true.
Proof.
  assert (H : is_Some (count_words (list_ascii_of_string "Ab ab, c") !! "ab"))
    by (exists 2; by vm_compute).
  split; [exact H|].
  exact (table_words_are_lowercase (list_ascii_of_string "Ab ab, c") "ab" H).
Defined.

(** X10: for a stream shorter than 2^64 bytes every count in the table is at
    least 1 and at most the number of tokens of the stream. *)
Theorem table_counts_are_positive (data : list ascii) (w : string) (c : Z) :
  Z.of_nat (length data) < uint64_modulus →
  count_words data !! w = Some c →
  1 ≤ c ≤ Z.of_nat (length (tokens data)).
Proof.
  intros Hlen Hc.
  assert (Hw : w ∈ tokens data) by (apply count_words_dom; eauto).
  rewrite (count_words_exact data w Hlen Hw) in Hc. injection Hc as <-.
  pose proof (occurrences_le w (tokens data)).
  assert (occurrences w (tokens data) ≠ 0%nat)
    by (intros Hzero; by apply occurrences_zero in Hzero).
  lia.
Qed.

Lemma table_counts_are_positive_witness :
  Z.of_nat (length (list_ascii_of_string "Ab ab, c")) < uint64_modulus
  ∧ count_words (list_ascii_of_string "Ab ab, c") !! "ab" = Some 2
  ∧ 1 ≤ 2 ≤ Z.of_nat (length (tokens (list_ascii_of_string "Ab ab, c"))).
Proof.
  split; [by vm_compute|]. split; [by vm_compute|].
  apply (table_counts_are_positive (list_ascii_of_string "Ab ab, c") "ab" 2);
    by vm_compute.
Defined.

(** X11: counters are 64-bit: a word is in the table exactly when the stream
    has it as a token, and its count is the number of its occurrences
    reduced modulo 2^64, without any assumption on the length of the
    stream. *)
Theorem table_counts_modulo (data : list ascii) (w : string) :
  count_words data !! w =
  if decide (w ∈ tokens data)
  then Some (Z.of_nat (occurrences w (tokens data)) mod 2 ^ 64)
  else None.
Proof.
  rewrite count_words_lookup. case_decide as Hocc.
  - apply occurrences_zero in Hocc. by rewrite decide_False.
  - rewrite decide_True; [done|].
    destruct (decide (w ∈ tokens data)) as [|Hnot]; [done|].
    by apply occurrences_zero in Hnot.
Qed.

(** X12: counting is case-insensitive: folding the stream to lower case
    before counting gives the same table. *)
Theorem counting_ignores_case (data : list ascii) :
  count_words (tolower <$> data) = count_words data.
Proof.
  unfold count_words. f_equal. generalize scanner_init.
  induction data as [|ch data IH]; intros s; csimpl; [done|].
  rewrite IH. f_equal. unfold scan_char.
  destruct (tolower_facts ch) as (-> & -> & _). done.
Qed.

Lemma alphabetic_runs_nil_iff (data : list ascii) :
  alphabetic_runs data = [] ↔ Forall (λ ch, isalpha ch = false) data.
Proof.
  unfold alphabetic_runs. induction data as [|ch data IH]; simpl; [done|].
  destruct (split_runs data) as [run runs]. simpl in *.
  rewrite Forall_cons. destruct (isalpha ch); simpl.
  - split; [done|]. by intros [? _].
  - rewrite IH. tauto.
Qed.

(** X13: the table is empty exactly when the stream holds no ASCII letter
    (the empty stream included); the sorted sequence is then empty too. *)
Theorem table_empty_iff_no_letter (env : environment) (data : list ascii) :
  (count_words data = ∅ ↔ Forall (λ ch, isalpha ch = false) data)
  ∧ (ConvertAndSortStats env (count_words data) = []
     ↔ Forall (λ ch, isalpha ch = false) data).
Proof.
  assert (Htable : count_words data = ∅
                   ↔ Forall (λ ch, isalpha ch = false) data).
  { rewrite <- alphabetic_runs_nil_iff. split.
    - intros Hempty.
      destruct (alphabetic_runs data) as [|run runs] eqn:Hruns; [done|].
      assert (Hin : case_fold run ∈ tokens data).
      { unfold tokens. rewrite Hruns. by left. }
      apply count_words_dom in Hin as [c Hc].
      by rewrite Hempty, lookup_empty in Hc.
    - intros Hruns. rewrite count_words_tokens. unfold tokens.
      by rewrite Hruns. }
  split; [done|]. rewrite <- Htable.
  pose proof (ConvertAndSortStats_perm env (count_words data)) as Hperm.
  split.
  - intros Hnil. rewrite Hnil in Hperm.
    apply Permutation_nil_l in Hperm. symmetry in Hperm.
    apply fmap_nil_inv in Hperm. by apply map_to_list_empty_iff.
  - intros Hempty. rewrite Hempty, map_to_list_empty in Hperm.
    rewrite Hempty. by apply Permutation_nil_r.
Qed.

Lemma maximal_runs_separator (d1 d2 : list ascii) (sep : ascii)
    (runs1 runs2 : list (list ascii)) :
  isalpha sep = false →
  maximal_runs d1 runs1 → maximal_runs d2 runs2 →
  maximal_runs (d1 ++ sep :: d2) (runs1 ++ runs2).
Proof.
  intros Hsep H1 H2.
  induction H1 as [|ch data runs Hch _ IH|run data runs Hne Halpha Hhead _ IH];
    simpl.
  - by apply runs_separator.
  - by apply runs_separator.
  - rewrite <- app_assoc. apply runs_word; [done..| |done].
    destruct data as [|c data]; simpl in *; [by intros ? [= <-]|done].
Qed.

(** X14: counting composes across a separator: the tokens of two streams
    joined by a non-alphabetic byte are the tokens of the first followed by
    those of the second, and each count of the joined stream is the sum of
    the two counts (a word absent from a table counting 0), modulo 2^64. *)
Theorem counting_across_separator (d1 d2 : list ascii) (sep : ascii)
    (w : string) :
  isalpha sep = false →
  tokens (d1 ++ sep :: d2) = tokens d1 ++ tokens d2
  ∧ default 0 (count_words (d1 ++ sep :: d2) !! w)
    = wrap64 (default 0 (count_words d1 !! w)
              + default 0 (count_words d2 !! w)).
Proof.
  intros Hsep.
  assert (Htokens : tokens (d1 ++ sep :: d2) = tokens d1 ++ tokens d2).
  { unfold tokens. rewrite <- fmap_app. f_equal. symmetry.
    apply maximal_runs_unique, maximal_runs_separator;
      auto using alphabetic_runs_maximal. }
  split; [done|].
  rewrite !count_words_default, Htokens, occurrences_app.
  unfold wrap64. rewrite <- Zplus_mod. f_equal. lia.
Qed.

Lemma counting_across_separator_witness :
  isalpha " " = false
  ∧ tokens (list_ascii_of_string "ab" ++ " "%char :: list_ascii_of_string "AB c")
    = tokens (list_ascii_of_string "ab") ++ tokens (list_ascii_of_string "AB c")
  ∧ default 0 (count_words (list_ascii_of_string "ab" ++ " "%char
                            :: list_ascii_of_string "AB c") !! "ab")
    = wrap64 (default 0 (count_words (list_ascii_of_string "ab") !! "ab")
              + default 0 (count_words (list_ascii_of_string "AB c") !! "ab")).
Proof.
  split; [by vm_compute|].
  apply (counting_across_separator (list_ascii_of_string "ab")
           (list_ascii_of_string "AB c") " " "ab").
  by vm_compute.
Defined.

(** ** Files, diagnostics and timing *)

(** X15: [ReadFileAndCountStats] either fails at opening, printing
    "can't open input file for reading, filename: <name>" to standard error
    and throwing a [runtime_error] with that text, or returns the table of
    the bytes delivered, printing nothing; a read error after opening is not
    told apart from the end of the file. *)
Theorem ReadFileAndCountStats_behaviour (env : environment)
    (input_filename : string) (p : process) :
  ReadFileAndCountStats env input_filename p =
  match open_for_reading env input_filename with
  | CannotOpenInput =>
      (inl (runtime_error ("can't open input file for reading, filename: "
                           +:+ input_filename)),
       mkProcess (cerr p +:+ ("can't open input file for reading, filename: "
                              +:+ input_filename) +:+ newline)
                 (cout p) (clock_reads p))
  | InputData data _ => (inr (count_words data), p)
  end.
Proof.
  destruct (open_for_reading env input_filename) as [|data e] eqn:Hopen.
  - unfold ReadFileAndCountStats. by rewrite Hopen.
  - by eapply ReadFileAndCountStats_data.
Qed.




Lemma TimeLogger_new_exact (clock : nat → Z) (p : process) :
  TimeLogger_new clock p =
  (inr (mkTimeLogger (clock (clock_reads p))),
   mkProcess (cerr p) (cout p) (S (clock_reads p))).
Proof. done. Qed.

Lemma LogTime_exact (clock : nat → Z) (k : nat) (text : string) (p : process) :
  clock_reads p = S k →
  LogTime clock (mkTimeLogger (clock k)) text p =
  (inr (mkTimeLogger (clock (S k))),
   mkProcess (cerr p) (cout p +:+ timing_line clock k text) (S (S k))).
Proof.
  intros Hk. unfold LogTime, steady_clock_now, cout_put, mbind, M_bind, bind.
  simpl. by rewrite Hk.
Qed.

Lemma main_final_process (env : environment) (p : process) :
  (main env p).2 =
  mkProcess
    (cerr p +:+ summary_diagnostic
       (run_summary (argv env) (open_for_reading env) (open_for_writing env)))
    (match run_summary (argv env) (open_for_reading env) (open_for_writing env)
     with
     | UsageError | InputOpenError _ => cout p
     | OutputOpenError _ =>
         (cout p
          +:+ timing_line (steady_clock env) (clock_reads p)
                          "read and count stats")
         +:+ timing_line (steady_clock env) (S (clock_reads p)) "sort stats"
     | Completed _ =>
         ((cout p
           +:+ timing_line (steady_clock env) (clock_reads p)
                           "read and count stats")
          +:+ timing_line (steady_clock env) (S (clock_reads p)) "sort stats")
         +:+ timing_line (steady_clock env) (S (S (clock_reads p)))
                         "write stats"
     end)
    (match run_summary (argv env) (open_for_reading env) (open_for_writing env)
     with
     | UsageError => clock_reads p
     | InputOpenError _ => S (clock_reads p)
     | OutputOpenError _ => S (S (S (clock_reads p)))
     | Completed _ => S (S (S (S (clock_reads p))))
     end).
Proof.
  unfold main, run_summary, arg.
  destruct (argv env) as [|a0 [|a1 [|a2 [|a3 rest]]]]; simpl; try done.
  unfold mbind at 1, M_bind at 1, bind at 1. rewrite TimeLogger_new_exact.
  unfold mbind at 1, M_bind at 1, bind at 1, attempt.
  destruct (open_for_reading env a1) as [|data read_error] eqn:Hin.
  - unfold ReadFileAndCountStats. rewrite Hin. simpl.
    by rewrite string_app_assoc.
  - rewrite (ReadFileAndCountStats_data env a1 data read_error _ Hin).
    unfold mbind at 1, M_bind at 1, bind at 1.
    rewrite (LogTime_exact _ (clock_reads p)) by done.
    unfold mbind at 1, M_bind at 1, bind at 1.
    rewrite (LogTime_exact _ (S (clock_reads p))) by done.
    unfold mbind at 1, M_bind at 1, bind at 1.
    unfold WriteStatsToFile.
    destruct (open_for_writing env a2) as [|write_error] eqn:Hout; simpl.
    { by rewrite string_app_assoc. }
    unfold mbind at 1, M_bind at 1, bind at 1, try_catch, lift.
    destruct write_error.
    + rewrite write_loop_rejected by done. simpl.
      by rewrite string_app_nil_r.
    + rewrite write_loop_accepted by done. simpl.
      by rewrite string_app_nil_r.
Qed.

(** X18: the timing lines on standard output follow the phases that
    completed: none after a usage error or when the input cannot be opened,
    "read and count stats" and "sort stats" when the output cannot be
    opened, and all three, in this order, for a completed run; each line
    reports the time since the previous reading of the clock, which is read
    once when the logger is built and once per line. *)
Theorem main_timing (env : environment) (p : process) :
  (cout (main env p).2, clock_reads (main env p).2) =
  match run_summary (argv env) (open_for_reading env) (open_for_writing env)
  with
  | UsageError => (cout p, clock_reads p)
  | InputOpenError _ => (cout p, S (clock_reads p))
  | OutputOpenError _ =>
      ((cout p
        +:+ timing_line (steady_clock env) (clock_reads p)
                        "read and count stats")
       +:+ timing_line (steady_clock env) (S (clock_reads p)) "sort stats",
       S (S (S (clock_reads p))))
  | Completed _ =>
      (((cout p
         +:+ timing_line (steady_clock env) (clock_reads p)
                         "read and count stats")
        +:+ timing_line (steady_clock env) (S (clock_reads p)) "sort stats")
       +:+ timing_line (steady_clock env) (S (S (clock_reads p)))
                       "write stats",
       S (S (S (S (clock_reads p)))))
  end.
Proof.
  rewrite main_final_process. simpl.
  by destruct (run_summary _ _ _).
Qed.

(** ** The output file *)

Lemma newlines_app (a b : string) :
  newlines (a +:+ b) = (newlines a + newlines b)%nat.
Proof.
  induction a as [|c a IH]; [done|].
  rewrite string_app_cons. simpl. rewrite IH. lia.
Qed.

Lemma newlines_digits (d : Decimal.uint) :
  newlines (NilEmpty.string_of_uint d) = 0%nat.
Proof. induction d; simpl; auto. Qed.

Lemma newlines_decimal (n : Z) : newlines (decimal n) = 0%nat.
Proof.
  unfold decimal, NilZero.string_of_int, NilZero.string_of_uint.
  destruct (Z.to_int n) as [[]|[]]; simpl; auto using newlines_digits.
Qed.

Lemma newlines_lowercase (w : string) :
  forallb islower (list_ascii_of_string w) = true → newlines w = 0%nat.
Proof.
  induction w as [|c w IH]; simpl; [done|].
  intros [Hc Hw]%andb_true_iff. rewrite (IH Hw).
  case_decide as Hnl; [|done]. subst c. by vm_compute in Hc.
Qed.

Lemma newlines_output_lines (stats : list StatsData) :
  Forall (λ r, newlines (word r) = 0%nat) stats →
  newlines (output_lines stats) = length stats.
Proof.
  induction 1 as [|r stats Hr _ IH]; [done|].
  simpl. unfold output_line.
  rewrite !newlines_app, Hr, newlines_decimal, IH. by vm_compute.
Qed.

(** X19: the output file of a run has exactly one newline per distinct word
    of the input: every record is written on a line of its own, and neither
    a word nor a count contains a newline. *)
Theorem one_line_per_distinct_word (env : environment) (data : list ascii) :
  newlines (output_lines (ConvertAndSortStats env (count_words data)))
  = length (distinct_words (tokens data)).
Proof.
  pose proof (ConvertAndSortStats_perm env (count_words data)) as Hperm.
  rewrite newlines_output_lines.
  - rewrite Hperm, length_fmap.
    by rewrite <- (length_fmap fst), count_words_keys.
  - rewrite Forall_forall. intros r Hr. rewrite Hperm in Hr.
    apply list_elem_of_fmap in Hr as ([w c] & -> & Hin).
    apply elem_of_map_to_list in Hin. simpl.
    assert (Hw : w ∈ tokens data) by (apply count_words_dom; eauto).
    unfold tokens in Hw. apply list_elem_of_fmap in Hw as (run & -> & Hrun).
    pose proof (maximal_runs_letters _ _ (alphabetic_runs_maximal data)) as Hall.
    rewrite Forall_forall in Hall. destruct (Hall run Hrun) as [_ Halpha].
    by apply newlines_lowercase, case_fold_lowercase.
Qed.
